(** * cigvis.gui.custom_widgets: the custom widgets and the rectangle helper

    A shallow embedding of [cigvis/gui/custom_widgets.py].  Widget objects
    are records, methods are functions that take the object (or the widget
    tree it lives in) and return the updated one, Python exceptions are the
    [Raise] results of a small error monad, and signal emission is either a
    log of emitted values ([MyQSpinBox.changed]) or a direct call of the
    connected slot ([toggled]). *)

From Stdlib Require Import ZArith Lia Bool.
From Stdlib Require Import Floats.SpecFloat.
From stdpp Require Import base list strings.

Local Open Scope Z_scope.

(** ** Python results *)

Module Py.

Inductive exn := IndexError | TypeError | AttributeError.

Inductive result (A : Type) :=
| Ok (a : A)
| Raise (e : exn).
Arguments Ok {A} a.
Arguments Raise {A} e.

Definition bind {A B} (r : result A) (k : A -> result B) : result B :=
  match r with
  | Ok a => k a
  | Raise e => Raise e
  end.

(** [l[i]] on a Python list. *)
Definition index {A} (l : list A) (i : nat) : result A :=
  match l !! i with
  | Some a => Ok a
  | None => Raise IndexError
  end.

(** A Python [float]: an IEEE 754 binary64 number, with its infinities
    and NaN. *)
Definition float : Type := spec_float.

Definition float_sub (x y : float) : float := SFsub 53 1024 x y.

Definition float_abs (x : float) : float := SFabs x.

(** [x <= y] on floats: false as soon as one side is NaN. *)
Definition float_le (x y : float) : bool := SFleb x y.

(** [x != x]: the test for NaN. *)
Definition float_is_nan (x : float) : bool :=
  match x with
  | S754_nan => true
  | _ => false
  end.

(** The numbers a coordinate can be, with what [-] and [abs] do on them:
    [int], exact, and [float]. *)
Class Number (A : Type) := { num_sub : A -> A -> A; num_abs : A -> A }.

#[global] Instance int_Number : Number Z :=
  {| num_sub := Z.sub; num_abs := Z.abs |}.

#[global] Instance float_Number : Number float :=
  {| num_sub := float_sub; num_abs := float_abs |}.

(** [a - b] where either operand may be [None]. *)
Definition sub {A} `{Number A} (a b : option A) : result A :=
  match a, b with
  | Some x, Some y => Ok (num_sub x y)
  | _, _ => Raise TypeError
  end.

End Py.

Notation "'let*' x := r 'in' k" := (Py.bind r (fun x => k))
  (at level 10, x name, r at level 100, k at level 200).

(** ** RectP *)

Module RectP.
Import Py.

Section Coordinates.
(** The type of a coordinate; an attribute that holds [None] is [None]. *)
Context {A : Type}.

Record t := mk { x0 : option A; y0 : option A; x1 : option A; y1 : option A }.

(** [RectP()] : every argument defaults to [None]. *)
Definition init : t := mk None None None None.

Definition add_p0 (self : t) (x y : A) : t :=
  mk (Some x) (Some y) (x1 self) (y1 self).

Definition add_p1 (self : t) (x y : A) : t :=
  mk (x0 self) (y0 self) (Some x) (Some y).

Definition from_points (p0 p1 : list A) : result t :=
  let* a := index p0 0 in
  let* b := index p0 1 in
  let* c := index p1 0 in
  let* d := index p1 1 in
  Ok (mk (Some a) (Some b) (Some c) (Some d)).

Definition to_points (self : t) : list (option A) :=
  [x0 self; y0 self; x1 self; y1 self].

(** A plot event: [xdata] and [ydata] are [None] when the pointer is
    outside the axes. *)
Record event := mkEvent { xdata : option A; ydata : option A }.

Definition add_p0event (self : t) (e : event) : t :=
  mk (xdata e) (ydata e) (x1 self) (y1 self).

Definition add_p1event (self : t) (e : event) : t :=
  mk (x0 self) (y0 self) (xdata e) (ydata e).

Definition from_events (e0 e1 : event) : t :=
  mk (xdata e0) (ydata e0) (xdata e1) (ydata e1).

(** A corner assignment, and a sequence of them applied in order. *)
Inductive assignment :=
| Add_p0 (x y : A)
| Add_p1 (x y : A).

Definition assign (self : t) (op : assignment) : t :=
  match op with
  | Add_p0 x y => add_p0 self x y
  | Add_p1 x y => add_p1 self x y
  end.

Definition assign_all (ops : list assignment) (self : t) : t :=
  fold_left assign ops self.

(** The corner a sequence of assignments leaves behind: the arguments of
    its last [add_p0] (resp. [add_p1]), or what was there before. *)
Fixpoint latest_p0 (ops : list assignment) (d : option A * option A)
  : option A * option A :=
  match ops with
  | [] => d
  | Add_p0 x y :: ops' => latest_p0 ops' (Some x, Some y)
  | Add_p1 _ _ :: ops' => latest_p0 ops' d
  end.

Fixpoint latest_p1 (ops : list assignment) (d : option A * option A)
  : option A * option A :=
  match ops with
  | [] => d
  | Add_p0 _ _ :: ops' => latest_p1 ops' d
  | Add_p1 x y :: ops' => latest_p1 ops' (Some x, Some y)
  end.

End Coordinates.
Arguments t A : clear implicits.
Arguments assignment A : clear implicits.
Arguments event A : clear implicits.

(** [to_start_size] on coordinates that are all [int] or all [float]: the
    subtraction raises [TypeError] on a corner that is still [None], and
    [abs] is taken of the difference as that arithmetic computes it. *)
Definition to_start_size {A} `{Number A} (self : t A) : result (list (option A)) :=
  let* dx := sub (x1 self) (x0 self) in
  let width := num_abs dx in
  let* dy := sub (y1 self) (y0 self) in
  let height := num_abs dy in
  Ok [x0 self; y0 self; Some width; Some height].

End RectP.

(** ** MyQSpinBox *)

Module MyQSpinBox.

(** The part of a [QSpinBox] the overrides read and write. *)
Record t := mk { minimum : Z; maximum : Z; value : Z }.

(** The toolkit keeps the value inside the range. *)
Definition wf (s : t) : Prop := minimum s <= value s <= maximum s.

(** [QSpinBox.setValue]: the argument is bounded to the range. *)
Definition setValue (s : t) (v : Z) : t :=
  mk (minimum s) (maximum s) (Z.max (minimum s) (Z.min (maximum s) v)).

Inductive Key := Key_Return | Key_Up | Key_Down | Key_other (code : Z).

Definition is_arrow (k : Key) : bool :=
  match k with
  | Key_Up | Key_Down => true
  | _ => false
  end.

(** The keys the override handles itself. *)
Definition overridden (k : Key) : bool :=
  match k with
  | Key_other _ => false
  | _ => true
  end.

(** What a handler leaves behind: the widget and the values the [changed]
    signal was emitted with, in order. *)
Definition outcome : Type := t * list Z.

Section Toolkit.
(** The base class' [stepBy] and [keyPressEvent] are the toolkit's. *)
Variable super_stepBy : t -> Z -> t.
Variable super_keyPressEvent : t -> Key -> outcome.

Definition stepBy (self : t) (steps : Z) : outcome :=
  let self := super_stepBy self steps in
  (self, [value self]).

Definition keyPressEvent (self : t) (key : Key) : outcome :=
  match key with
  | Key_Return => (self, [value self])
  | Key_Up =>
      if value self >=? maximum self then (self, [])
      else
        let value' := value self + 1 in
        let self := setValue self value' in
        (self, [value'])
  | Key_Down =>
      if value self <=? minimum self then (self, [])
      else
        let value' := value self - 1 in
        let self := setValue self value' in
        (self, [value'])
  | Key_other _ => super_keyPressEvent self key
  end.

(** The key events [keys] delivered in order; the emissions accumulate. *)
Definition keyPresses (keys : list Key) (self : t) : outcome :=
  fold_left
    (fun (acc : outcome) key =>
       let (self, out) := keyPressEvent acc.1 key in (self, acc.2 ++ out))
    keys (self, []).

End Toolkit.

(** A base class for running the handlers: single step 1, no wrapping,
    keys it does not know are ignored. *)
Definition QSpinBox_stepBy (s : t) (steps : Z) : t := setValue s (value s + steps).
Definition QSpinBox_keyPressEvent (s : t) (_ : Key) : outcome := (s, []).

End MyQSpinBox.


(** ** Loops and slots *)

Module Qt.

(** A Python [for] loop over the widgets [js], whose body may run out of
    fuel; the state is threaded through the iterations. *)
Fixpoint for_each {S : Type} (body : nat -> S -> option S) (js : list nat) (s : S)
  : option S :=
  match js with
  | [] => Some s
  | j :: js' =>
      match body j s with
      | Some s' => for_each body js' s'
      | None => None
      end
  end.

(** [g] answers whatever [f] answers: a slot run with more fuel. *)
Definition extends {S A B : Type} (f g : A -> B -> S -> option S) : Prop :=
  forall a b s s', f a b s = Some s' -> g a b s = Some s'.

End Qt.

(** ** ToggleButton *)

Module ToggleButton.
Import Qt.

(** A button is known by its position in the list of the application's
    toggle buttons; [parent] names the widget it was given as parent. *)
Record t := mk {
  title : string;
  usesfix : bool;
  exclu : bool;
  parent : option nat;
  text : string;
  isChecked : bool
}.

(** [ToggleButton(title, usesfix, exclu, parent)]: a checkable push button,
    unchecked, showing the title it was constructed with. *)
Definition init (title : string) (usesfix exclu : bool) (parent : option nat) : t :=
  let title := if usesfix then title +:+ " OFF" else title in
  mk title usesfix exclu parent title false.

Definition with_text (s : string) (b : t) : t :=
  mk (title b) (usesfix b) (exclu b) (parent b) s (isChecked b).

Definition with_checked (c : bool) (b : t) : t :=
  mk (title b) (usesfix b) (exclu b) (parent b) (text b) c.

Definition setText (w : list t) (self : nat) (s : string) : list t :=
  alter (with_text s) self w.

Section Slots.
(** [QAbstractButton.setChecked], the knot tied by [setChecked] below. *)
Variable setChecked : nat -> bool -> list t -> option (list t).

(** Modelled from the spec: the parent widget's [updateToggleState(sender,
    checked)], whose class is not among the sources.  It is the observer
    callback that, on one button's activation, deactivates all siblings of
    the toggle group: every other exclusive toggle button with the same
    parent is set unchecked; a button configured non-exclusive takes no
    part. *)
Definition updateToggleState (parent_id sender : nat) (checked : bool) (w : list t)
  : option (list t) :=
  if checked then
    for_each
      (fun j w =>
         match w !! j with
         | Some b =>
             if bool_decide (j <> sender /\ exclu b = true
                             /\ parent b = Some parent_id)
             then setChecked j false w
             else Some w
         | None => Some w
         end)
      (seq 0 (length w)) w
  else Some w.

Definition onToggle (self : nat) (checked : bool) (w : list t) : option (list t) :=
  match w !! self with
  | None => Some w
  | Some b =>
      let coordinated :=
        if exclu b then
          match parent b with
          | Some p => updateToggleState p self checked w
          | None => Some w
          end
        else Some w in
      match coordinated with
      | None => None
      | Some w =>
          if negb (usesfix b) then Some w
          else if checked then Some (setText w self (title b +:+ " ON"))
          else Some (setText w self (title b +:+ " OFF"))
      end
  end.

End Slots.

(** [QAbstractButton.setChecked] on a checkable push button (not
    auto-exclusive): nothing happens when the state is already the one
    asked for, otherwise the state changes and [toggled(checked)] is
    emitted, which runs [onToggle]. *)
Fixpoint setChecked (fuel : nat) (self : nat) (checked : bool) (w : list t)
  : option (list t) :=
  match fuel with
  | O => None
  | S fuel =>
      match w !! self with
      | None => Some w
      | Some b =>
          if bool_decide (isChecked b = checked) then Some w
          else onToggle (setChecked fuel) self checked (alter (with_checked checked) self w)
      end
  end.

(** What a change to unchecked, and to checked, leaves of the button that
    changes: the new state and, with [usesfix], the new text. *)
Definition off (b : t) : t :=
  if isChecked b then
    if usesfix b then with_text (title b +:+ " OFF") (with_checked false b)
    else with_checked false b
  else b.

Definition on (b : t) : t :=
  if isChecked b then b
  else if usesfix b then with_text (title b +:+ " ON") (with_checked true b)
  else with_checked true b.

(** Button [b] belongs to the exclusive group of parent [p]. *)
Definition in_group (p : nat) (b : t) : Prop :=
  exclu b = true /\ parent b = Some p.

Definition at_most_one_on (p : nat) (w : list t) : Prop :=
  forall j k bj bk,
    w !! j = Some bj -> w !! k = Some bk ->
    in_group p bj -> in_group p bk ->
    isChecked bj = true -> isChecked bk = true -> j = k.

(** The states of a set of constructed buttons: they start as [init] leaves
    them and change by [setChecked] on any of them. *)
Inductive reachable : list t -> Prop :=
| reach_init w :
    Forall (fun b => exists ti u e p, b = init ti u e p) w -> reachable w
| reach_setChecked w fuel i c w' :
    reachable w -> setChecked fuel i c w = Some w' -> reachable w'.

End ToggleButton.

(** ** RadioButtonPanel *)

Module RadioButtonPanel.
Import Py Qt.

(** An [UnpickRadioButton]: a [QRadioButton], hence auto-exclusive; a
    button is known by its position in [radioButtons]. *)
Record UnpickRadioButton := mkButton { text : string; isChecked : bool }.

(** [selected] is [None] while the attribute has not been assigned. *)
Record t := mk {
  names : list string;
  radioButtons : list UnpickRadioButton;
  selected : option string
}.

Definition with_checked (c : bool) (b : UnpickRadioButton) : UnpickRadioButton :=
  mkButton (text b) c.

Definition with_buttons (bs : list UnpickRadioButton) (self : t) : t :=
  mk (names self) bs (selected self).

Definition with_selected (s : string) (self : t) : t :=
  mk (names self) (radioButtons self) (Some s).

(** The first checked button other than [q], scanning from position [k]. *)
Fixpoint find_checked_other (q k : nat) (l : list UnpickRadioButton) : option nat :=
  match l with
  | [] => None
  | b :: l' =>
      if isChecked b && negb (Nat.eqb k q) then Some k
      else find_checked_other q (S k) l'
  end.

(** The toolkit's [queryCheckedButton] for button [q] of the panel, after
    Qt 5's [qabstractbutton.cpp]: the auto-exclusive buttons that share the
    parent form the group; a list of one button is no group; otherwise the
    answer is the first checked button other than [q], or [q] itself when
    it is checked. *)
Definition queryCheckedButton (self : t) (q : nat) : option nat :=
  if bool_decide (length (radioButtons self) = 1%nat) then None
  else
    match find_checked_other q 0 (radioButtons self) with
    | Some k => Some k
    | None =>
        match radioButtons self !! q with
        | Some b => if isChecked b then Some q else None
        | None => None
        end
    end.

Section Slots.
(** [QAbstractButton.setChecked], the knot tied by [setChecked] below. *)
Variable setChecked : nat -> bool -> t -> option t.

(** The slot connected to every button's [toggled]; [sender] is the button
    that emitted the signal. *)
Definition onRadioButtonChanged (sender : nat) (self : t) : option t :=
  match radioButtons self !! sender with
  | None => Some self
  | Some radioButton =>
      if isChecked radioButton then
        let self := with_selected (text radioButton) self in
        for_each
          (fun rad self =>
             if bool_decide (rad <> sender) then setChecked rad false self
             else Some self)
          (seq 0 (length (radioButtons self))) self
      else Some self
  end.

(** The toolkit's [notifyChecked]: the button of the group found checked is
    set unchecked. *)
Definition notifyChecked (q : nat) (self : t) : option t :=
  match queryCheckedButton self q with
  | Some b => setChecked b false self
  | None => Some self
  end.

End Slots.

(** [QAbstractButton.setChecked] on an auto-exclusive button: nothing
    happens when the state is already the one asked for, and the checked
    button of the group cannot be unchecked; otherwise the state changes,
    a newly checked button has the group notified, and [toggled] is
    emitted, which runs [onRadioButtonChanged]. *)
Fixpoint setChecked (fuel : nat) (q : nat) (checked : bool) (self : t) : option t :=
  match fuel with
  | O => None
  | S fuel =>
      match radioButtons self !! q with
      | None => Some self
      | Some b =>
          if bool_decide (isChecked b = checked) then Some self
          else if negb checked && bool_decide (queryCheckedButton self q = Some q)
          then Some self
          else
            let self := with_buttons (alter (with_checked checked) q (radioButtons self)) self in
            let notified :=
              if checked then notifyChecked (setChecked fuel) q self else Some self in
            match notified with
            | None => None
            | Some self => onRadioButtonChanged (setChecked fuel) q self
            end
      end
  end.

(** [RadioButtonPanel(names)]: one unchecked button per name, then the
    first one is checked and the selection assigned.  The result is [None]
    only when the fuel does not suffice. *)
Definition init (fuel : nat) (ns : list string) : option (result t) :=
  let self := mk ns ((fun name => mkButton name false) <$> ns) None in
  match index (radioButtons self) 0 with
  | Raise e => Some (Raise e)
  | Ok _ =>
      match setChecked fuel 0 true self with
      | None => None
      | Some self =>
          Some (let* first := index (names self) 0 in Ok (with_selected first self))
      end
  end.

Definition getCurrentSelection (self : t) : result string :=
  match selected self with
  | Some s => Ok s
  | None => Raise AttributeError
  end.

(** How many buttons of the panel report checked. *)
Definition checked_count (self : t) : nat :=
  length (filter (fun b => isChecked b = true) (radioButtons self)).

(** [c] is the one button of [l] that reports checked, if there is one. *)
Definition only_checked (c : option nat) (l : list UnpickRadioButton) : Prop :=
  (forall k b, l !! k = Some b -> (isChecked b = true <-> c = Some k))
  /\ (forall k, c = Some k -> (k < length l)%nat).

(** What holds of a panel made for the names [ns]: the buttons carry the
    names in order, at most one is checked, the selection is a name and is
    the text of the checked button, and with several names some button is
    checked. *)
Definition panel_inv (ns : list string) (p : t) : Prop :=
  names p = ns
  /\ text <$> radioButtons p = ns
  /\ exists c s,
      only_checked c (radioButtons p)
      /\ selected p = Some s /\ s ∈ ns
      /\ (forall k b, c = Some k -> radioButtons p !! k = Some b -> s = text b)
      /\ (length ns <> 1%nat -> is_Some c).

(** The states of a panel constructed with [names]: what the constructor
    returns, and what any [setChecked] on any button makes of them. *)
Inductive reachable (ns : list string) : t -> Prop :=
| reach_init fuel p :
    init fuel ns = Some (Ok p) -> reachable ns p
| reach_setChecked p fuel i c p' :
    reachable ns p -> setChecked fuel i c p = Some p' -> reachable ns p'.

End RadioButtonPanel.


(** * Properties *)

(** ** RectP *)

Section RectP_facts.
Import Py RectP.

Lemma assign_all_corners {A} (ops : list (assignment A)) (r : RectP.t A) :
  (x0 (assign_all ops r), y0 (assign_all ops r)) = latest_p0 ops (x0 r, y0 r)
  /\ (x1 (assign_all ops r), y1 (assign_all ops r)) = latest_p1 ops (x1 r, y1 r).
Proof.
  revert r. induction ops as [|op ops IH]; intros r; [split; reflexivity|].
  destruct op as [x y|x y]; cbn [latest_p0 latest_p1].
  - apply (IH (add_p0 r x y)).
  - apply (IH (add_p1 r x y)).
Qed.

Lemma to_start_size_set {A} `{Number A} (a0 b0 a1 b1 : A) (r : RectP.t A) :
  x0 r = Some a0 -> y0 r = Some b0 -> x1 r = Some a1 -> y1 r = Some b1 ->
  to_start_size r
  = Ok [Some a0; Some b0; Some (num_abs (num_sub a1 a0));
        Some (num_abs (num_sub b1 b0))].
Proof.
  intros Hx0 Hy0 Hx1 Hy1. unfold to_start_size. rewrite Hx0, Hy0, Hx1, Hy1.
  reflexivity.
Qed.

Lemma to_start_size_latest {A} `{Number A}
  (r : RectP.t A) (ops : list (assignment A)) (a0 b0 a1 b1 : A) :
  latest_p0 ops (x0 r, y0 r) = (Some a0, Some b0) ->
  latest_p1 ops (x1 r, y1 r) = (Some a1, Some b1) ->
  to_start_size (assign_all ops r)
  = Ok [Some a0; Some b0; Some (num_abs (num_sub a1 a0));
        Some (num_abs (num_sub b1 b0))].
Proof.
  intros H0 H1. destruct (assign_all_corners ops r) as [E0 E1].
  rewrite H0 in E0. rewrite H1 in E1.
  injection E0 as Ex0 Ey0. injection E1 as Ex1 Ey1.
  now apply to_start_size_set.
Qed.

(** [abs] of a float is NaN or not below zero, and it is NaN exactly when
    its argument is. *)
Lemma float_abs_nonneg (x : float) :
  float_le (S754_zero false) (float_abs x) = negb (float_is_nan x)
  /\ float_is_nan (float_abs x) = float_is_nan x.
Proof. destruct x as [[]|[]| |[] m e]; split; reflexivity. Qed.




(** A rectangle whose second corner was never assigned has no size: the
    subtraction on [None] raises. *)
Example to_start_size_unset :
  to_start_size (add_p0 RectP.init 1 2) = Raise TypeError.
Proof. reflexivity. Qed.

(** C7. [from_points] takes the first two entries of each point as they
    are, in any order and with any coincidence, and [to_points] gives the
    same four values back. *)
Theorem RectP_from_points_to_points {A} (a b c d : A) (rest0 rest1 : list A) :
  exists r,
    from_points (a :: b :: rest0) (c :: d :: rest1) = Ok r
    /\ to_points r = [Some a; Some b; Some c; Some d].
Proof. eexists. split; reflexivity. Qed.

(** The second corner left of and above the first, and a rectangle of no
    extent. *)
Example from_points_reversed :
  from_points [5; 8] [2; 3] = Ok (RectP.mk (Some 5) (Some 8) (Some 2) (Some 3)).
Proof. reflexivity. Qed.

Example from_points_empty_extent :
  (let* r := from_points [4; 4] [4; 4] in to_start_size r)
  = Ok [Some 4; Some 4; Some 0; Some 0].
Proof. reflexivity. Qed.

(** A point with fewer than two entries is the only thing refused. *)
Example from_points_short : @from_points Z [1] [2; 3] = Raise IndexError.
Proof. reflexivity. Qed.

End RectP_facts.

(** ** MyQSpinBox *)

Section MyQSpinBox_facts.
Import MyQSpinBox.

Variable super_stepBy : MyQSpinBox.t -> Z -> MyQSpinBox.t.
Variable super_keyPressEvent : MyQSpinBox.t -> Key -> outcome.

Local Abbreviation keyPressEvent := (MyQSpinBox.keyPressEvent super_keyPressEvent).
Local Abbreviation stepBy := (MyQSpinBox.stepBy super_stepBy).

Lemma setValue_in_range (s : MyQSpinBox.t) (v : Z) :
  minimum s <= v <= maximum s -> value (setValue s v) = v.
Proof. intros H. unfold setValue; cbn. lia. Qed.


(** C6. At or above the maximum the Up key, and at or below the minimum
    the Down key, return at once: same widget, nothing emitted. *)
Theorem MyQSpinBox_step_at_bound_ignored (s : MyQSpinBox.t) (k : Key) :
  (k = Key_Up /\ maximum s <= value s) \/ (k = Key_Down /\ value s <= minimum s) ->
  keyPressEvent s k = (s, []).
Proof.
  intros [[-> H]|[-> H]]; cbn [MyQSpinBox.keyPressEvent].
  - destruct (Z.geb_spec (value s) (maximum s)); [reflexivity | lia].
  - destruct (Z.leb_spec (value s) (minimum s)); [reflexivity | lia].
Qed.

End MyQSpinBox_facts.

Section MyQSpinBox_runs.
Import MyQSpinBox.

Local Abbreviation keyPressEvent := (MyQSpinBox.keyPressEvent QSpinBox_keyPressEvent).
Local Abbreviation stepBy := (MyQSpinBox.stepBy QSpinBox_stepBy).


Example up_then_enter :
  keyPressEvent (MyQSpinBox.mk 0 99 41) Key_Up = (MyQSpinBox.mk 0 99 42, [42])
  /\ keyPressEvent (MyQSpinBox.mk 0 99 42) Key_Return = (MyQSpinBox.mk 0 99 42, [42]).
Proof. split; reflexivity. Qed.

Lemma MyQSpinBox_step_at_bound_ignored_witness :
  keyPressEvent (MyQSpinBox.mk 0 99 99) Key_Up = (MyQSpinBox.mk 0 99 99, []).
Proof.
  apply (MyQSpinBox_step_at_bound_ignored QSpinBox_keyPressEvent
           (MyQSpinBox.mk 0 99 99) Key_Up).
  left. split; [reflexivity | cbn; lia].
Defined.

(** The toolkit's own stepping at the maximum still goes through [stepBy],
    which emits: only the overridden arrow keys are silent there. *)
Example stepBy_at_maximum :
  stepBy (MyQSpinBox.mk 0 99 99) 1 = (MyQSpinBox.mk 0 99 99, [99]).
Proof. reflexivity. Qed.

End MyQSpinBox_runs.

(** ** Loops and fuel *)

Section Qt_facts.
Import Qt.

Lemma for_each_extends {S : Type} (body1 body2 : nat -> S -> option S) js :
  (forall j s s', body1 j s = Some s' -> body2 j s = Some s') ->
  forall s s', for_each body1 js s = Some s' -> for_each body2 js s = Some s'.
Proof.
  intros Hb. induction js as [|j js IH]; intros s s' H; [exact H|].
  cbn in *. destruct (body1 j s) as [s1|] eqn:E; [|discriminate].
  rewrite (Hb _ _ _ E). now apply IH.
Qed.

(** A loop whose every iteration leaves the state alone leaves it alone. *)
Lemma for_each_idle {S : Type} (body : nat -> S -> option S) js s :
  (forall j, j ∈ js -> body j s = Some s) -> for_each body js s = Some s.
Proof.
  induction js as [|j js IH]; intros H; [reflexivity|].
  cbn. rewrite H by apply list_elem_of_here.
  apply IH. intros k Hk. apply H. now apply list_elem_of_further.
Qed.

Lemma string_app_assoc (a b c : string) : (a +:+ b) +:+ c = a +:+ (b +:+ c).
Proof.
  induction a as [|x a IH]; [reflexivity|].
  change (String x ((a +:+ b) +:+ c) = String x (a +:+ (b +:+ c))).
  now rewrite IH.
Qed.

End Qt_facts.

(** ** ToggleButton *)

Section ToggleButton_facts.
Import Qt ToggleButton.

Lemma updateToggleState_extends setC1 setC2 p i c w w' :
  extends setC1 setC2 ->
  updateToggleState setC1 p i c w = Some w' ->
  updateToggleState setC2 p i c w = Some w'.
Proof.
  intros Hx. unfold updateToggleState. destruct c; [|trivial].
  apply for_each_extends. intros j s s'. destruct (s !! j); [|trivial].
  case_bool_decide; [apply Hx | trivial].
Qed.

Lemma onToggle_extends setC1 setC2 i c w w' :
  extends setC1 setC2 ->
  onToggle setC1 i c w = Some w' -> onToggle setC2 i c w = Some w'.
Proof.
  intros Hx. unfold onToggle. destruct (w !! i) as [b|]; [|trivial].
  destruct (exclu b); [|trivial]. destruct (parent b) as [p|]; [|trivial].
  destruct (updateToggleState setC1 p i c w) as [w1|] eqn:E; [|discriminate].
  now rewrite (updateToggleState_extends _ _ _ _ _ _ _ Hx E).
Qed.

Lemma setChecked_S fuel : extends (setChecked fuel) (setChecked (S fuel)).
Proof.
  induction fuel as [|fuel IH]; intros i c w w' H; [discriminate|].
  cbn [setChecked] in *. destruct (w !! i) as [b|]; [|exact H].
  case_bool_decide; [exact H|]. revert H. now apply onToggle_extends.
Qed.

Lemma setChecked_more fuel fuel' i c w w' :
  (fuel <= fuel')%nat ->
  setChecked fuel i c w = Some w' -> setChecked fuel' i c w = Some w'.
Proof.
  induction 1 as [|m _ IH]; [trivial|]. intros H. now apply setChecked_S, IH.
Qed.

Lemma onToggle_off setC i w b :
  w !! i = Some b ->
  onToggle setC i false w
  = Some (if usesfix b then setText w i (title b +:+ " OFF") else w).
Proof.
  intros Hi. unfold onToggle. rewrite Hi.
  destruct (exclu b); [destruct (parent b)|]; cbn; destruct (usesfix b); reflexivity.
Qed.

(** Unchecking never reaches the parent's loop: one unit of fuel is enough,
    and only the button itself changes. *)
Lemma setChecked_off fuel i w :
  setChecked (S fuel) i false w = Some (alter off i w).
Proof.
  cbn [setChecked]. destruct (w !! i) as [b|] eqn:Ei.
  - case_bool_decide as Hc.
    + f_equal. apply list_eq. intros k. rewrite list_lookup_alter.
      case_decide; subst; [|reflexivity]. rewrite Ei. cbn. unfold off.
      now rewrite Hc.
    + assert (isChecked b = true) as Hb by (destruct (isChecked b); congruence).
      rewrite (onToggle_off _ _ _ (with_checked false b))
        by now rewrite list_lookup_alter_eq, Ei.
      f_equal. cbn. unfold setText. destruct (usesfix b) eqn:Eu.
      * rewrite list_alter_alter_eq. apply list_alter_ext; [|reflexivity].
        intros x Hx. rewrite Ei in Hx. injection Hx as <-. cbn. unfold off.
        now rewrite Hb, Eu.
      * apply list_alter_ext; [|reflexivity].
        intros x Hx. rewrite Ei in Hx. injection Hx as <-. unfold off.
        now rewrite Hb, Eu.
  - f_equal. apply list_eq. intros k. rewrite list_lookup_alter.
    case_decide; subst; [now rewrite Ei | reflexivity].
Qed.

Lemma off_off b : off (off b) = off b.
Proof. unfold off. destruct b as [? [] ? ? ? []]; reflexivity. Qed.

Lemma off_unchecked b : isChecked (off b) = false.
Proof. unfold off. destruct b as [? [] ? ? ? []]; reflexivity. Qed.

Lemma off_fields b :
  title (off b) = title b /\ usesfix (off b) = usesfix b
  /\ exclu (off b) = exclu b /\ parent (off b) = parent b.
Proof. unfold off. destruct b as [? [] ? ? ? []]; repeat split. Qed.

Lemma on_fields b :
  title (on b) = title b /\ usesfix (on b) = usesfix b
  /\ exclu (on b) = exclu b /\ parent (on b) = parent b.
Proof. unfold on. destruct b as [? [] ? ? ? []]; repeat split. Qed.

(** The parent's loop, run with fuel for the unchecking it does: every
    exclusive button of parent [p] visited, the sender apart, is [off]. *)
Lemma updateToggleState_loop fuel p i js :
  forall w, exists w',
    for_each
      (fun j w =>
         match w !! j with
         | Some b =>
             if bool_decide (j <> i /\ exclu b = true /\ parent b = Some p)
             then setChecked (S fuel) j false w
             else Some w
         | None => Some w
         end) js w = Some w'
    /\ forall k,
        w' !! k
        = (fun b => if bool_decide (k ∈ js /\ k <> i /\ exclu b = true
                                    /\ parent b = Some p)
                    then off b else b) <$> w !! k.
Proof.
  induction js as [|j js IH]; intros w.
  - exists w. split; [reflexivity|]. intros k. destruct (w !! k); cbn; [|reflexivity].
    rewrite bool_decide_eq_false_2; [reflexivity|].
    intros [H _]. now apply not_elem_of_nil in H.
  - cbn [for_each].
    set (g := fun b : ToggleButton.t =>
                if bool_decide (j <> i /\ exclu b = true /\ parent b = Some p)
                then off b else b).
    assert (match w !! j with
            | Some b =>
                if bool_decide (j <> i /\ exclu b = true /\ parent b = Some p)
                then setChecked (S fuel) j false w
                else Some w
            | None => Some w
            end = Some (alter g j w)) as ->.
    { destruct (w !! j) as [b|] eqn:Ej.
      - case_bool_decide as Hc.
        + rewrite setChecked_off. f_equal. apply list_alter_ext; [|reflexivity].
          intros x Hx. rewrite Ej in Hx. injection Hx as <-. unfold g.
          now rewrite bool_decide_eq_true_2.
        + f_equal. apply list_eq. intros k. rewrite list_lookup_alter.
          case_decide; subst; [|reflexivity]. rewrite Ej. cbn. unfold g.
          now rewrite bool_decide_eq_false_2.
      - f_equal. apply list_eq. intros k. rewrite list_lookup_alter.
        case_decide; subst; [now rewrite Ej | reflexivity]. }
    destruct (IH (alter g j w)) as (w' & Hrun & Hw'). exists w'.
    split; [exact Hrun|]. intros k. rewrite Hw', list_lookup_alter.
    case_decide as Hjk.
    + subst k. destruct (w !! j) as [b|]; cbn; [|reflexivity]. f_equal. unfold g.
      destruct (off_fields b) as (_ & _ & He & Hp).
      repeat case_bool_decide; try reflexivity; try apply off_off;
        try (rewrite He, Hp in *); exfalso; rewrite elem_of_cons in *; tauto.
    + destruct (w !! k) as [b|]; cbn; [|reflexivity]. f_equal.
      repeat case_bool_decide; try reflexivity; exfalso;
        rewrite elem_of_cons in *; intuition congruence.
Qed.

Lemma setChecked_unfold fuel i c w :
  setChecked (S fuel) i c w
  = match w !! i with
    | None => Some w
    | Some b =>
        if bool_decide (isChecked b = c) then Some w
        else onToggle (setChecked fuel) i c (alter (with_checked c) i w)
    end.
Proof. reflexivity. Qed.

Lemma setChecked_same fuel i c w b :
  w !! i = Some b -> isChecked b = c -> setChecked (S fuel) i c w = Some w.
Proof.
  intros Hi Hc. cbn [setChecked]. rewrite Hi. now rewrite bool_decide_eq_true_2.
Qed.

(** Checking an unchecked button: the button is [on]; when it is exclusive
    and has a parent, every other exclusive button of that parent is
    [off]; nothing else changes. *)
Lemma setChecked_on fuel i w b :
  w !! i = Some b -> isChecked b = false ->
  exists w',
    setChecked (S (S fuel)) i true w = Some w'
    /\ w' !! i = Some (on b)
    /\ forall k, k <> i ->
        w' !! k
        = (fun bk =>
             if bool_decide (exclu b = true /\ is_Some (parent b)
                             /\ exclu bk = true /\ parent bk = parent b)
             then off bk else bk) <$> w !! k.
Proof.
  intros Hi Hc. rewrite setChecked_unfold, Hi.
  rewrite bool_decide_eq_false_2 by congruence.
  set (w1 := alter (with_checked true) i w).
  assert (w1 !! i = Some (with_checked true b)) as Hi1
    by (unfold w1; now rewrite list_lookup_alter_eq, Hi).
  assert (forall k, k <> i -> w1 !! k = w !! k) as Hk1
    by (intros k Hk; unfold w1; now rewrite list_lookup_alter_ne).
  assert (forall w2, w2 !! i = Some (with_checked true b) ->
            (if usesfix b then setText w2 i (title b +:+ " ON") else w2) !! i
            = Some (on b)) as Htext.
  { intros w2 H2. unfold on. rewrite Hc. destruct (usesfix b); [|exact H2].
    unfold setText. now rewrite list_lookup_alter_eq, H2. }
  assert (forall w2 k, k <> i ->
            (if usesfix b then setText w2 i (title b +:+ " ON") else w2) !! k
            = w2 !! k) as Hrest.
  { intros w2 k Hk. destruct (usesfix b); [|reflexivity].
    unfold setText. now rewrite list_lookup_alter_ne. }
  unfold onToggle. rewrite Hi1. cbn [exclu parent usesfix title with_checked].
  destruct (exclu b) eqn:Ee; [destruct (parent b) as [p|] eqn:Ep|].
  - unfold updateToggleState.
    destruct (updateToggleState_loop fuel p i (seq 0 (length w1)) w1)
      as (w2 & -> & Hw2).
    exists (if usesfix b then setText w2 i (title b +:+ " ON") else w2).
    split; [destruct (usesfix b); reflexivity|]. split.
    + apply Htext. rewrite Hw2, Hi1. cbn. f_equal.
      rewrite bool_decide_eq_false_2; [reflexivity | tauto].
    + intros k Hk. rewrite Hrest, Hw2, Hk1 by assumption.
      destruct (w !! k) as [bk|] eqn:Ek; cbn; [|reflexivity]. f_equal.
      assert (k ∈ seq 0 (length w1)) as Hin.
      { apply elem_of_seq. unfold w1. rewrite length_alter.
        apply lookup_lt_Some in Ek. lia. }
      repeat case_bool_decide; try reflexivity; exfalso; intuition eauto.
  - exists (if usesfix b then setText w1 i (title b +:+ " ON") else w1).
    split; [destruct (usesfix b); reflexivity|]. split; [now apply Htext|].
    intros k Hk. rewrite Hrest, Hk1 by assumption.
    destruct (w !! k) as [bk|]; [|reflexivity]. cbn [fmap option_fmap option_map].
    rewrite bool_decide_eq_false_2; [reflexivity|]. intros (_ & [x Hx] & _).
    discriminate.
  - exists (if usesfix b then setText w1 i (title b +:+ " ON") else w1).
    split; [destruct (usesfix b); reflexivity|]. split; [now apply Htext|].
    intros k Hk. rewrite Hrest, Hk1 by assumption.
    destruct (w !! k) as [bk|]; [|reflexivity]. cbn [fmap option_fmap option_map].
    rewrite bool_decide_eq_false_2; [reflexivity|]. intros (H & _). discriminate.
Qed.

(** C8. A button that is not exclusive changes state on its own: whatever
    state it is set to, every other button stays exactly as it was. *)
Theorem ToggleButton_non_exclusive_frame fuel i c w b :
  w !! i = Some b -> exclu b = false ->
  exists w',
    setChecked (S (S fuel)) i c w = Some w'
    /\ isChecked <$> w' !! i = Some c
    /\ forall k, k <> i -> w' !! k = w !! k.
Proof.
  intros Hi He. destruct c.
  - destruct (isChecked b) eqn:Hc.
    + exists w. split; [now apply (setChecked_same _ _ _ _ b)|].
      split; [now rewrite Hi; cbn; rewrite Hc | reflexivity].
    + destruct (setChecked_on fuel i w b Hi Hc) as (w' & Hrun & Hon & Hrest).
      exists w'. split; [exact Hrun|]. split.
      * rewrite Hon. cbn. unfold on. rewrite Hc. now destruct (usesfix b).
      * intros k Hk. rewrite (Hrest k Hk).
        destruct (w !! k) as [bk|]; [|reflexivity]. cbn.
        rewrite bool_decide_eq_false_2; [reflexivity|]. intros (H & _).
        congruence.
  - exists (alter off i w). split; [apply setChecked_off|]. split.
    + rewrite list_lookup_alter_eq, Hi. cbn. now rewrite off_unchecked.
    + intros k Hk. now rewrite list_lookup_alter_ne.
Qed.

(** C10. With [usesfix] the title kept by the button already ends in
    [" OFF"], and the text set on a change of state is that title with
    [" ON"] or [" OFF"] appended once more: [T OFF ON] and [T OFF OFF],
    not [T ON] and [T OFF]. *)
Theorem ToggleButton_usesfix_text fuel (T s : string) e p i c w :
  w !! i = Some (with_text s (with_checked (negb c) (init T true e p))) ->
  title (init T true e p) = T +:+ " OFF"
  /\ exists w' b',
      setChecked (S (S fuel)) i c w = Some w' /\ w' !! i = Some b'
      /\ isChecked b' = c
      /\ text b' = T +:+ (if c then " OFF ON" else " OFF OFF")
      /\ text b' <> T +:+ (if c then " ON" else " OFF").
Proof.
  intros Hi. split; [reflexivity|]. destruct c.
  - destruct (setChecked_on fuel i w _ Hi eq_refl) as (w' & Hrun & Hon & _).
    exists w', (on (with_text s (with_checked false (init T true e p)))).
    split; [exact Hrun|]. split; [exact Hon|]. split; [reflexivity|].
    cbn. rewrite string_app_assoc. split; [reflexivity|].
    intros E. now apply String.app_inj in E.
  - exists (alter off i w), (off (with_text s (with_checked true (init T true e p)))).
    split; [apply setChecked_off|]. split; [now rewrite list_lookup_alter_eq, Hi|].
    split; [reflexivity|]. cbn. rewrite string_app_assoc. split; [reflexivity|].
    intros E. now apply String.app_inj in E.
Qed.

Lemma off_in_group p b : in_group p (off b) <-> in_group p b.
Proof.
  unfold in_group. destruct (off_fields b) as (_ & _ & -> & ->). tauto.
Qed.

Lemma on_in_group p b : in_group p (on b) <-> in_group p b.
Proof.
  unfold in_group. destruct (on_fields b) as (_ & _ & -> & ->). tauto.
Qed.

(** A state in which every button other than [i] is as before or [off]
    keeps the groups that had at most one button on, provided that [i],
    if it is on in a group, is either alone there or was on before. *)
Lemma at_most_one_on_step p i (P : ToggleButton.t -> bool) w w' :
  at_most_one_on p w ->
  (forall k, k <> i ->
     w' !! k = (fun bk => if P bk then off bk else bk) <$> w !! k) ->
  (forall bi, w' !! i = Some bi -> in_group p bi -> isChecked bi = true ->
     (exists b, w !! i = Some b /\ in_group p b /\ isChecked b = true)
     \/ (forall k bk, k <> i -> w' !! k = Some bk -> in_group p bk ->
          isChecked bk = false)) ->
  at_most_one_on p w'.
Proof.
  intros Hw Hrest Hi j k bj bk Hj Hk Gj Gk Cj Ck.
  assert (forall m bm, m <> i -> w' !! m = Some bm -> in_group p bm ->
            isChecked bm = true ->
            exists b, w !! m = Some b /\ in_group p b /\ isChecked b = true) as Hold.
  { intros m bm Hm Em Gm Cm. rewrite (Hrest m Hm) in Em.
    destruct (w !! m) as [b|]; [|discriminate]. cbn in Em. injection Em as <-.
    destruct (P b).
    - now rewrite off_unchecked in Cm.
    - eauto. }
  destruct (decide (j = k)) as [|Hjk]; [assumption|]. exfalso.
  assert (forall a c ba bc, a <> c -> w' !! a = Some ba -> w' !! c = Some bc ->
            in_group p ba -> in_group p bc ->
            isChecked ba = true -> isChecked bc = true -> c <> i -> False) as Hone.
  { intros a c ba bc Hac Ea Ec Ga Gc Ca Cc Hc.
    destruct (Hold c bc Hc Ec Gc Cc) as (bc0 & Ec0 & Gc0 & Cc0).
    destruct (decide (a = i)) as [->|Ha].
    - destruct (Hi ba Ea Ga Ca) as [(b0 & E0 & G0 & C0)|Halone].
      + apply Hac. apply (Hw i c b0 bc0); assumption.
      + rewrite (Halone c bc Hc Ec Gc) in Cc. discriminate.
    - destruct (Hold a ba Ha Ea Ga Ca) as (ba0 & Ea0 & Ga0 & Ca0).
      apply Hac. apply (Hw a c ba0 bc0); assumption. }
  destruct (decide (k = i)) as [->|Hk'].
  - apply (Hone i j bk bj); auto.
  - apply (Hone j k bj bk); auto.
Qed.

Lemma reachable_at_most_one_on w : reachable w -> forall p, at_most_one_on p w.
Proof.
  induction 1 as [w Hinit|w fuel i c w' Hreach IH Hrun]; intros p.
  - intros j k bj bk Hj _ _ _ Cj _. exfalso.
    rewrite Forall_lookup in Hinit.
    destruct (Hinit j bj Hj) as (ti & u & e & q & ->). discriminate.
  - apply (setChecked_more fuel (S (S fuel))) in Hrun; [|lia].
    destruct (w !! i) as [b|] eqn:Ei.
    2:{ rewrite setChecked_unfold, Ei in Hrun. injection Hrun as <-. apply IH. }
    destruct c; [destruct (isChecked b) eqn:Hc|].
    + rewrite (setChecked_same _ _ _ _ b Ei Hc) in Hrun. injection Hrun as <-.
      apply IH.
    + destruct (setChecked_on fuel i w b Ei Hc) as (w2 & Hrun2 & Hon & Hrest).
      rewrite Hrun in Hrun2. injection Hrun2 as <-.
      apply (at_most_one_on_step p i
               (fun bk => bool_decide (exclu b = true /\ is_Some (parent b)
                                       /\ exclu bk = true /\ parent bk = parent b))
               w w' (IH p) Hrest).
      intros bi Ebi Gbi _. right. intros k bk Hk Ek Gk.
      rewrite Hon in Ebi. injection Ebi as <-.
      apply (proj1 (on_in_group p b)) in Gbi.
      rewrite (Hrest k Hk) in Ek. destruct (w !! k) as [bk0|]; [|discriminate].
      cbn in Ek. injection Ek as <-. destruct Gbi as [Ge Gp].
      case_bool_decide as Hcond; [apply off_unchecked|]. exfalso. apply Hcond.
      destruct Gk as [Gke Gk]. rewrite Gp. split; [assumption|]. split; [eauto|].
      split; assumption.
    + rewrite setChecked_off in Hrun. injection Hrun as <-.
      apply (at_most_one_on_step p i (fun _ => false) w _ (IH p)).
      * intros k Hk. rewrite list_lookup_alter_ne by congruence.
        now destruct (w !! k).
      * intros bi Ebi _ Cbi. rewrite list_lookup_alter_eq, Ei in Ebi.
        injection Ebi as <-. now rewrite off_unchecked in Cbi.
Qed.

(** C1. In every state the buttons can be in, setting an exclusive button
    of parent [p] checked succeeds, leaves it checked and every other
    exclusive button of [p] unchecked; before and after, at most one
    exclusive button of [p] is checked. *)
Theorem ToggleButton_exclusive_group fuel w i b p :
  reachable w -> w !! i = Some b -> in_group p b ->
  exists w',
    setChecked (S (S fuel)) i true w = Some w'
    /\ isChecked <$> w' !! i = Some true
    /\ (forall k bk, k <> i -> w' !! k = Some bk -> in_group p bk ->
        isChecked bk = false)
    /\ at_most_one_on p w /\ at_most_one_on p w'.
Proof.
  intros Hreach Hi Gb.
  assert (exists w', setChecked (S (S fuel)) i true w = Some w') as [w' Hrun].
  { destruct (isChecked b) eqn:Hc.
    - exists w. now apply (setChecked_same _ _ _ _ b).
    - destruct (setChecked_on fuel i w b Hi Hc) as (w' & Hrun & _). eauto. }
  pose proof (reachable_at_most_one_on w Hreach p) as Hw.
  pose proof (reachable_at_most_one_on w'
                (reach_setChecked _ _ _ _ _ Hreach Hrun) p) as Hw'.
  exists w'. split; [exact Hrun|].
  assert (exists bi, w' !! i = Some bi /\ in_group p bi /\ isChecked bi = true)
    as (bi & Ebi & Gbi & Cbi).
  { destruct (isChecked b) eqn:Hc.
    - rewrite (setChecked_same _ _ _ _ b Hi Hc) in Hrun. injection Hrun as <-.
      eauto.
    - destruct (setChecked_on fuel i w b Hi Hc) as (w2 & Hrun2 & Hon & _).
      rewrite Hrun in Hrun2. injection Hrun2 as <-. exists (on b).
      split; [exact Hon|]. split; [now apply on_in_group|].
      unfold on. rewrite Hc. now destruct (usesfix b). }
  split; [now rewrite Ebi; cbn; rewrite Cbi|]. split; [|split; assumption].
  intros k bk Hk Ek Gk. destruct (isChecked bk) eqn:Ck; [|reflexivity].
  exfalso. apply Hk. apply (Hw' k i bk bi); assumption.
Qed.

Lemma ToggleButton_exclusive_group_witness :
  exists w',
    setChecked 2 1 true
      [init "a" false true (Some 0%nat); init "b" true true (Some 0%nat);
       init "c" false false (Some 0%nat)] = Some w'
    /\ isChecked <$> w' !! 1%nat = Some true
    /\ (forall k bk, k <> 1%nat -> w' !! k = Some bk -> in_group 0 bk ->
        isChecked bk = false)
    /\ at_most_one_on 0
         [init "a" false true (Some 0%nat); init "b" true true (Some 0%nat);
          init "c" false false (Some 0%nat)]
    /\ at_most_one_on 0 w'.
Proof.
  apply (ToggleButton_exclusive_group 0
           [init "a" false true (Some 0%nat); init "b" true true (Some 0%nat);
            init "c" false false (Some 0%nat)]
           1 (init "b" true true (Some 0%nat)) 0).
  - apply reach_init. repeat constructor; repeat eexists.
  - reflexivity.
  - split; reflexivity.
Defined.

Lemma ToggleButton_non_exclusive_frame_witness :
  exists w',
    setChecked 2 1 true
      [init "a" false true (Some 0%nat); init "c" false false (Some 0%nat)]
    = Some w'
    /\ isChecked <$> w' !! 1%nat = Some true
    /\ forall k, k <> 1%nat ->
        w' !! k
        = [init "a" false true (Some 0%nat); init "c" false false (Some 0%nat)] !! k.
Proof.
  apply (ToggleButton_non_exclusive_frame 0 1 true
           [init "a" false true (Some 0%nat); init "c" false false (Some 0%nat)]
           (init "c" false false (Some 0%nat))); reflexivity.
Defined.

Lemma ToggleButton_usesfix_text_witness :
  title (init "Box" true true (Some 0%nat)) = "Box OFF"
  /\ exists w' b',
      setChecked 2 0 true [init "Box" true true (Some 0%nat)] = Some w'
      /\ w' !! 0%nat = Some b' /\ isChecked b' = true
      /\ text b' = "Box OFF ON" /\ text b' <> "Box ON".
Proof.
  apply (ToggleButton_usesfix_text 0 "Box" "Box OFF" true (Some 0%nat) 0 true
           [init "Box" true true (Some 0%nat)]).
  reflexivity.
Defined.

(** Checking one exclusive button after another: the first goes off, and
    with [usesfix] its text says so. *)
Example exclusive_pair :
  (match setChecked 2 0 true
           [init "a" true true (Some 0%nat); init "b" true true (Some 0%nat)] with
   | Some w => setChecked 2 1 true w
   | None => None
   end)
  = Some [mk "a OFF" true true (Some 0%nat) "a OFF OFF" false;
          mk "b OFF" true true (Some 0%nat) "b OFF ON" true].
Proof. reflexivity. Qed.

End ToggleButton_facts.

(** ** RadioButtonPanel *)

Section RadioButtonPanel_facts.
Import Py Qt RadioButtonPanel.

Lemma radio_setChecked_unfold fuel q c p :
  setChecked (S fuel) q c p
  = match radioButtons p !! q with
    | None => Some p
    | Some b =>
        if bool_decide (isChecked b = c) then Some p
        else if negb c && bool_decide (queryCheckedButton p q = Some q)
        then Some p
        else
          let p1 := with_buttons (alter (with_checked c) q (radioButtons p)) p in
          match (if c then notifyChecked (setChecked fuel) q p1 else Some p1) with
          | None => None
          | Some p2 => onRadioButtonChanged (setChecked fuel) q p2
          end
    end.
Proof. reflexivity. Qed.

Lemma onRadioButtonChanged_extends setC1 setC2 i p p' :
  extends setC1 setC2 ->
  onRadioButtonChanged setC1 i p = Some p' ->
  onRadioButtonChanged setC2 i p = Some p'.
Proof.
  intros Hx. unfold onRadioButtonChanged.
  destruct (radioButtons p !! i) as [b|]; [|trivial].
  destruct (isChecked b); [|trivial].
  apply for_each_extends. intros j s s'. case_bool_decide; [apply Hx | trivial].
Qed.

Lemma notifyChecked_extends setC1 setC2 i p p' :
  extends setC1 setC2 ->
  notifyChecked setC1 i p = Some p' -> notifyChecked setC2 i p = Some p'.
Proof.
  intros Hx. unfold notifyChecked.
  destruct (queryCheckedButton p i); [apply Hx | trivial].
Qed.

Lemma radio_setChecked_S fuel : extends (setChecked fuel) (setChecked (S fuel)).
Proof.
  induction fuel as [|fuel IH]; intros i c p p' H; [discriminate|].
  rewrite radio_setChecked_unfold in *.
  destruct (radioButtons p !! i) as [b|]; [|exact H].
  case_bool_decide; [exact H|].
  destruct (negb c && bool_decide (queryCheckedButton p i = Some i)); [exact H|].
  cbv zeta in *.
  set (p1 := with_buttons (alter (with_checked c) i (radioButtons p)) p) in *.
  destruct c.
  - destruct (notifyChecked (setChecked fuel) i p1) as [p2|] eqn:E; [|discriminate].
    rewrite (notifyChecked_extends _ _ _ _ _ IH E).
    revert H. now apply onRadioButtonChanged_extends.
  - revert H. now apply onRadioButtonChanged_extends.
Qed.

Lemma radio_setChecked_more fuel fuel' i c p p' :
  (fuel <= fuel')%nat ->
  setChecked fuel i c p = Some p' -> setChecked fuel' i c p = Some p'.
Proof.
  induction 1 as [|m _ IH]; [trivial|]. intros H. now apply radio_setChecked_S, IH.
Qed.

Lemma init_more fuel fuel' ns r :
  (fuel <= fuel')%nat -> init fuel ns = Some r -> init fuel' ns = Some r.
Proof.
  intros Hle. unfold init.
  destruct (index _ 0); [|trivial].
  destruct (setChecked fuel 0 true _) as [p|] eqn:E; [|discriminate].
  now rewrite (radio_setChecked_more _ _ _ _ _ _ Hle E).
Qed.

(** What the scan for a checked button other than [q] finds. *)
Lemma find_checked_other_Some q l : forall k m,
  find_checked_other q k l = Some m ->
  exists b, (k <= m)%nat /\ l !! (m - k)%nat = Some b
            /\ isChecked b = true /\ m <> q.
Proof.
  induction l as [|b l IH]; intros k m H; [discriminate|].
  cbn in H. destruct (isChecked b) eqn:Hb; cbn in H.
  - destruct (Nat.eqb_spec k q) as [->|Hkq]; cbn in H.
    + destruct (IH _ _ H) as (b' & Hle & Hl & Hc & Hm). exists b'.
      split; [lia|]. split; [|tauto].
      replace (m - q)%nat with (S (m - S q)) by lia. exact Hl.
    + injection H as <-. exists b. rewrite Nat.sub_diag. auto.
  - destruct (IH _ _ H) as (b' & Hle & Hl & Hc & Hm). exists b'.
    split; [lia|]. split; [|tauto].
    replace (m - k)%nat with (S (m - S k)) by lia. exact Hl.
Qed.

Lemma find_checked_other_None q l : forall k,
  find_checked_other q k l = None ->
  forall idx b, l !! idx = Some b -> isChecked b = true -> (k + idx)%nat = q.
Proof.
  induction l as [|b l IH]; intros k H idx b' Hl Hc; [discriminate|].
  cbn in H. destruct idx as [|idx]; cbn in Hl.
  - injection Hl as ->. rewrite Hc in H. cbn in H.
    destruct (Nat.eqb_spec k q); [lia | discriminate].
  - destruct (isChecked b && negb (k =? q)%nat); [discriminate|].
    rewrite <- (IH _ H idx b' Hl Hc). lia.
Qed.

Lemma texts_alter c i (l : list UnpickRadioButton) :
  text <$> alter (with_checked c) i l = text <$> l.
Proof.
  apply list_eq. intros k. rewrite !list_lookup_fmap, list_lookup_alter.
  case_decide; subst; [|reflexivity]. now destruct (l !! k).
Qed.

Lemma onRadioButtonChanged_unchecked setC j p :
  (forall b, radioButtons p !! j = Some b -> isChecked b = false) ->
  onRadioButtonChanged setC j p = Some p.
Proof.
  intros H. unfold onRadioButtonChanged.
  destruct (radioButtons p !! j) as [b|]; [|reflexivity]. now rewrite (H b).
Qed.

Lemma radio_setChecked_false_idle fuel j p :
  (forall b, radioButtons p !! j = Some b -> isChecked b = false) ->
  setChecked (S fuel) j false p = Some p.
Proof.
  intros H. rewrite radio_setChecked_unfold.
  destruct (radioButtons p !! j) as [b|]; [|reflexivity].
  now rewrite bool_decide_eq_true_2 by auto.
Qed.

(** The slot run for the only checked button records its text; its loop
    finds every other button unchecked already. *)
Lemma onRadioButtonChanged_checked fuel i p b :
  radioButtons p !! i = Some b -> only_checked (Some i) (radioButtons p) ->
  onRadioButtonChanged (setChecked (S fuel)) i p = Some (with_selected (text b) p).
Proof.
  intros Hi [Hc _]. unfold onRadioButtonChanged. rewrite Hi.
  rewrite (proj2 (Hc i b Hi) eq_refl).
  apply for_each_idle. intros j _. case_bool_decide as Hj; [|reflexivity].
  apply radio_setChecked_false_idle. cbn. intros bj Ej.
  destruct (isChecked bj) eqn:E; [|reflexivity].
  apply (Hc j bj Ej) in E. congruence.
Qed.

Lemma find_checked_other_unique q l m :
  (forall k b, l !! k = Some b -> isChecked b = true -> k = q \/ k = m) ->
  (exists b, l !! m = Some b /\ isChecked b = true) -> m <> q ->
  find_checked_other q 0 l = Some m.
Proof.
  intros Hall (bm & Em & Cm) Hmq.
  destruct (find_checked_other q 0 l) as [m'|] eqn:E.
  - destruct (find_checked_other_Some _ _ _ _ E) as (b' & _ & E' & C' & Hm').
    rewrite Nat.sub_0_r in E'. destruct (Hall m' b' E' C'); congruence.
  - pose proof (find_checked_other_None _ _ _ E m bm Em Cm). cbn in *. congruence.
Qed.

Lemma find_checked_other_none q l :
  (forall k b, l !! k = Some b -> isChecked b = true -> k = q) ->
  find_checked_other q 0 l = None.
Proof.
  intros Hall. destruct (find_checked_other q 0 l) as [m'|] eqn:E; [|reflexivity].
  destruct (find_checked_other_Some _ _ _ _ E) as (b' & _ & E' & C' & Hm').
  rewrite Nat.sub_0_r in E'. now pose proof (Hall m' b' E' C').
Qed.

(** With at most one button checked, the group's checked button is that
    one, unless the panel has a single button. *)
Lemma queryCheckedButton_only c p q :
  only_checked c (radioButtons p) ->
  queryCheckedButton p q
  = if bool_decide (length (radioButtons p) = 1%nat) then None else c.
Proof.
  intros [Hc Hlen]. unfold queryCheckedButton. case_bool_decide; [reflexivity|].
  destruct c as [j|].
  - destruct (lookup_lt_is_Some_2 _ _ (Hlen j eq_refl)) as [bj Ej].
    pose proof (proj2 (Hc j bj Ej) eq_refl) as Cj.
    destruct (decide (j = q)) as [->|Hjq].
    + rewrite find_checked_other_none, Ej, Cj; [reflexivity|].
      intros k b Ek Ck. apply (Hc k b Ek) in Ck. congruence.
    + rewrite (find_checked_other_unique q _ j); eauto.
      intros k b Ek Ck. apply (Hc k b Ek) in Ck. right. congruence.
  - rewrite find_checked_other_none.
    + destruct (radioButtons p !! q) as [b|] eqn:Eq; [|reflexivity].
      destruct (isChecked b) eqn:Cb; [|reflexivity].
      apply (Hc q b Eq) in Cb. discriminate.
    + intros k b Ek Ck. apply (Hc k b Ek) in Ck. discriminate.
Qed.

(** Unchecking: refused for the checked button of a panel with several
    buttons, carried out for the only button of a panel, and nothing to do
    otherwise. *)
Lemma radio_setChecked_false fuel j p c :
  only_checked c (radioButtons p) ->
  exists p',
    setChecked (S fuel) j false p = Some p'
    /\ (p' = p
        \/ (length (radioButtons p) = 1%nat
            /\ p' = with_buttons (alter (with_checked false) j (radioButtons p)) p
            /\ only_checked None (radioButtons p'))).
Proof.
  intros Honly. pose proof Honly as [Hc Hlen].
  destruct (radioButtons p !! j) as [b|] eqn:Ej.
  2:{ exists p. split; [|now left]. apply radio_setChecked_false_idle.
      intros b Eb. congruence. }
  destruct (isChecked b) eqn:Cb.
  2:{ exists p. split; [|now left]. apply radio_setChecked_false_idle.
      intros b' Eb. congruence. }
  rewrite radio_setChecked_unfold, Ej, bool_decide_eq_false_2 by congruence.
  rewrite (queryCheckedButton_only c) by assumption.
  pose proof (proj1 (Hc j b Ej) Cb) as ->.
  destruct (decide (length (radioButtons p) = 1%nat)) as [Hone|Hone].
  - rewrite (bool_decide_eq_true_2 _ Hone), bool_decide_eq_false_2 by discriminate.
    cbn [negb andb].
    set (p1 := with_buttons (alter (with_checked false) j (radioButtons p)) p).
    assert (only_checked None (radioButtons p1)) as Hnone.
    { split; [|discriminate]. intros k bk Ek. split; [|discriminate].
      intros Ck. exfalso. cbn in Ek. rewrite list_lookup_alter in Ek.
      case_decide; subst.
      - rewrite Ej in Ek. cbn in Ek. injection Ek as <-. discriminate.
      - apply (Hc k bk Ek) in Ck. congruence. }
    exists p1. split; [|right; auto].
    apply onRadioButtonChanged_unchecked. intros bk Ek.
    destruct (isChecked bk) eqn:Ck; [|reflexivity].
    apply (proj1 Hnone j bk Ek) in Ck. discriminate.
  - rewrite (bool_decide_eq_false_2 _ Hone), bool_decide_eq_true_2 by reflexivity.
    exists p. auto.
Qed.

Lemma only_checked_alter_true i (l : list UnpickRadioButton) :
  only_checked None l -> (i < length l)%nat ->
  only_checked (Some i) (alter (with_checked true) i l).
Proof.
  intros [Hc _] Hi. split.
  - intros k bk Ek. rewrite list_lookup_alter in Ek. case_decide; subst.
    + destruct (l !! k); [|discriminate]. cbn in Ek. injection Ek as <-.
      now split.
    + split; [|congruence]. intros Ck. apply (Hc k bk Ek) in Ck. discriminate.
  - intros k [= <-]. now rewrite length_alter.
Qed.

Lemma only_checked_swap i j (l : list UnpickRadioButton) :
  only_checked (Some j) l -> (i < length l)%nat -> i <> j ->
  only_checked (Some i)
    (alter (with_checked false) j (alter (with_checked true) i l)).
Proof.
  intros [Hc _] Hi Hij. split.
  - intros k bk Ek. rewrite !list_lookup_alter in Ek.
    destruct (decide (j = k)) as [->|Hjk].
    + rewrite decide_False in Ek by assumption.
      destruct (l !! k); [|discriminate]. cbn in Ek. injection Ek as <-.
      split; [discriminate | congruence].
    + case_decide; subst.
      * destruct (l !! k); [|discriminate]. cbn in Ek. injection Ek as <-.
        now split.
      * split; [|congruence]. intros Ck. apply (Hc k bk Ek) in Ck. congruence.
  - intros k [= <-]. now rewrite !length_alter.
Qed.

(** Checking a button: the one checked before, if any, is unchecked by the
    toolkit, the slot records the text of the new one and finds nothing
    left to uncheck. *)
Lemma radio_setChecked_true fuel i p c b :
  only_checked c (radioButtons p) -> radioButtons p !! i = Some b ->
  exists p',
    setChecked (S (S fuel)) i true p = Some p'
    /\ names p' = names p
    /\ text <$> radioButtons p' = text <$> radioButtons p
    /\ only_checked (Some i) (radioButtons p')
    /\ (c = Some i -> p' = p)
    /\ (c <> Some i -> selected p' = Some (text b)).
Proof.
  intros Honly Ei. pose proof Honly as [Hc Hlen].
  pose proof (lookup_lt_Some _ _ _ Ei) as Hi.
  destruct (isChecked b) eqn:Cb.
  { pose proof (proj1 (Hc i b Ei) Cb) as ->. exists p.
    rewrite radio_setChecked_unfold, Ei, bool_decide_eq_true_2 by assumption.
    refine (conj eq_refl (conj eq_refl (conj eq_refl (conj Honly (conj _ _)))));
      [reflexivity | congruence]. }
  assert (c <> Some i) as Hci.
  { intros ->. rewrite (proj2 (Hc i b Ei) eq_refl) in Cb. discriminate. }
  rewrite radio_setChecked_unfold, Ei, bool_decide_eq_false_2 by congruence.
  cbn [negb andb]. cbv zeta.
  set (bs1 := alter (with_checked true) i (radioButtons p)).
  set (p1 := with_buttons bs1 p).
  assert (bs1 !! i = Some (with_checked true b)) as Ei1
    by (unfold bs1; now rewrite list_lookup_alter_eq, Ei).
  assert (exists p2,
            notifyChecked (setChecked (S fuel)) i p1 = Some p2
            /\ names p2 = names p /\ selected p2 = selected p
            /\ text <$> radioButtons p2 = text <$> radioButtons p
            /\ only_checked (Some i) (radioButtons p2)
            /\ radioButtons p2 !! i = Some (with_checked true b))
    as (p2 & -> & Hn & Hs & Ht & Honly2 & Ei2).
  { unfold notifyChecked. destruct c as [j|].
    - (* the button checked before is found and unchecked *)
      assert (i <> j) as Hij by congruence.
      pose proof (Hlen j eq_refl) as Hj.
      destruct (lookup_lt_is_Some_2 _ _ Hj) as [bj Ej].
      pose proof (proj2 (Hc j bj Ej) eq_refl) as Cj.
      assert (bs1 !! j = Some bj) as Ej1
        by (unfold bs1; now rewrite list_lookup_alter_ne).
      assert (forall k bk, bs1 !! k = Some bk -> isChecked bk = true ->
                k = i \/ k = j) as Htwo.
      { intros k bk Ek Ck. unfold bs1 in Ek. rewrite list_lookup_alter in Ek.
        case_decide; [now left|]. right. apply (Hc k bk Ek) in Ck. congruence. }
      assert (length bs1 <> 1%nat) as Hlen1
        by (unfold bs1; rewrite length_alter; lia).
      assert (queryCheckedButton p1 i = Some j) as ->.
      { unfold queryCheckedButton. cbn [radioButtons p1 with_buttons].
        rewrite bool_decide_eq_false_2 by assumption.
        rewrite (find_checked_other_unique i bs1 j); eauto. }
      assert (queryCheckedButton p1 j = Some i) as Hq.
      { unfold queryCheckedButton. cbn [radioButtons p1 with_buttons].
        rewrite bool_decide_eq_false_2 by assumption.
        rewrite (find_checked_other_unique j bs1 i); eauto.
        intros k bk Ek Ck. destruct (Htwo k bk Ek Ck); auto. }
      rewrite radio_setChecked_unfold. cbn [radioButtons p1 with_buttons].
      rewrite Ej1, bool_decide_eq_false_2 by congruence.
      fold p1. rewrite Hq, bool_decide_eq_false_2 by congruence.
      cbn [negb andb]. cbv zeta.
      set (p2 := with_buttons (alter (with_checked false) j bs1) p1).
      assert (only_checked (Some i) (radioButtons p2)) as Honly2
        by (now apply only_checked_swap).
      exists p2. split.
      + apply onRadioButtonChanged_unchecked. intros bk Ek.
        destruct (isChecked bk) eqn:Ck; [|reflexivity].
        apply (proj1 Honly2 j bk Ek) in Ck. congruence.
      + refine (conj eq_refl (conj eq_refl (conj _ (conj Honly2 _)))).
        * unfold p2, bs1. cbn [radioButtons with_buttons]. now rewrite !texts_alter.
        * unfold p2. cbn [radioButtons with_buttons].
          rewrite (list_lookup_alter_ne _ bs1 j i) by (intros E; now apply Hij).
          exact Ei1.
    - (* no button was checked *)
      assert (only_checked (Some i) bs1) as Honly1
        by (now apply only_checked_alter_true).
      assert (match queryCheckedButton p1 i with
              | Some b0 => setChecked (S fuel) b0 false p1
              | None => Some p1
              end = Some p1) as ->.
      { rewrite (queryCheckedButton_only (Some i)) by assumption.
        case_bool_decide as Hone; [reflexivity|].
        rewrite radio_setChecked_unfold. cbn [radioButtons p1 with_buttons].
        rewrite Ei1, bool_decide_eq_false_2 by discriminate.
        fold p1. rewrite (queryCheckedButton_only (Some i)) by assumption.
        rewrite (bool_decide_eq_false_2 _ Hone).
        now rewrite bool_decide_eq_true_2. }
      exists p1.
      refine (conj eq_refl (conj eq_refl (conj eq_refl (conj _ (conj Honly1 Ei1))))).
      unfold p1, bs1. cbn [radioButtons with_buttons]. now rewrite texts_alter. }
  rewrite (onRadioButtonChanged_checked fuel i p2 _ Ei2 Honly2).
  eexists. split; [reflexivity|].
  refine (conj Hn (conj Ht (conj Honly2 (conj _ _)))); [contradiction | reflexivity].
Qed.

Lemma init_first fuel first rest :
  exists p,
    init (S (S fuel)) (first :: rest) = Some (Ok p)
    /\ names p = first :: rest
    /\ text <$> radioButtons p = first :: rest
    /\ only_checked (Some 0%nat) (radioButtons p)
    /\ selected p = Some first
    /\ radioButtons p !! 0%nat = Some (mkButton first true).
Proof.
  unfold init. cbv zeta.
  set (self := mk (first :: rest) _ None).
  assert (radioButtons self !! 0%nat = Some (mkButton first false)) as E0
    by reflexivity.
  unfold index at 1. rewrite E0.
  assert (only_checked None (radioButtons self)) as Hnone.
  { split; [|discriminate]. intros k b Ek. split; [|discriminate].
    intros Cb. exfalso. unfold self in Ek. cbn [radioButtons] in Ek.
    rewrite list_lookup_fmap in Ek.
    destruct ((first :: rest) !! k); [|discriminate].
    injection Ek as <-. discriminate. }
  destruct (radio_setChecked_true fuel 0 self None (mkButton first false) Hnone E0)
    as (p' & -> & Hn & Ht & Honly & _ & Hs).
  unfold index. rewrite Hn. cbn [lookup list_lookup bind].
  exists (with_selected first p').
  refine (conj eq_refl (conj Hn (conj _ (conj Honly (conj eq_refl _))))).
  - cbn [radioButtons with_selected]. rewrite Ht. unfold self.
    cbn [radioButtons]. rewrite <- list_fmap_compose. apply list_fmap_id.
  - cbn [radioButtons with_selected].
    destruct (lookup_lt_is_Some_2 _ _ (proj2 Honly 0%nat eq_refl)) as [b0 Eb0].
    rewrite Eb0. f_equal.
    pose proof (proj2 (proj1 Honly 0%nat b0 Eb0) eq_refl) as C0.
    assert (text b0 = first) as T0.
    { apply (f_equal (fun l => l !! 0%nat)) in Ht.
      rewrite !list_lookup_fmap, Eb0, E0 in Ht. cbn in Ht. congruence. }
    destruct b0; cbn in *; congruence.
Qed.

Lemma panel_inv_init fuel ns p : init fuel ns = Some (Ok p) -> panel_inv ns p.
Proof.
  intros H. destruct ns as [|first rest]; [discriminate|].
  apply (init_more fuel (S (S fuel))) in H; [|lia].
  destruct (init_first fuel first rest) as (p0 & E & Hn & Ht & Honly & Hs & H0).
  rewrite H in E. injection E as <-.
  refine (conj Hn (conj Ht _)). exists (Some 0%nat), first.
  refine (conj Honly (conj Hs (conj _ (conj _ _)))).
  - apply list_elem_of_here.
  - intros k b [= <-] Eb. rewrite H0 in Eb. now injection Eb as <-.
  - eauto.
Qed.

(** Every [setChecked] on a panel returns, and keeps what holds of it. *)
Lemma panel_inv_setChecked fuel ns i c p :
  panel_inv ns p ->
  exists p', setChecked (S (S fuel)) i c p = Some p' /\ panel_inv ns p'.
Proof.
  intros Hinv. pose proof Hinv as (Hn & Ht & c0 & s & Honly & Hs & Hin & Hsel & Hsome).
  destruct (radioButtons p !! i) as [b|] eqn:Ei.
  2:{ exists p. split; [|exact Hinv]. now rewrite radio_setChecked_unfold, Ei. }
  destruct c.
  - destruct (radio_setChecked_true fuel i p c0 b Honly Ei)
      as (p' & Hrun & Hn' & Ht' & Honly' & Hsame & Hnew).
    exists p'. split; [exact Hrun|].
    destruct (decide (c0 = Some i)) as [Hc|Hc]; [now rewrite (Hsame Hc)|].
    refine (conj (eq_trans Hn' Hn) (conj (eq_trans Ht' Ht) _)).
    assert ((text <$> radioButtons p) !! i = Some (text b)) as Hti
      by (now rewrite list_lookup_fmap, Ei).
    exists (Some i), (text b).
    refine (conj Honly' (conj (Hnew Hc) (conj _ (conj _ _)))).
    + rewrite Ht in Hti. apply list_elem_of_lookup. eauto.
    + intros k b' [= <-] Eb'. rewrite <- Ht', list_lookup_fmap, Eb' in Hti.
      cbn in Hti. congruence.
    + eauto.
  - destruct (radio_setChecked_false (S fuel) i p c0 Honly)
      as (p' & Hrun & [->|(Hone & -> & Hnone)]).
    + exists p. split; [exact Hrun | exact Hinv].
    + eexists. split; [exact Hrun|].
      refine (conj Hn (conj _ _)).
      * cbn [radioButtons with_buttons]. now rewrite texts_alter.
      * exists None, s. refine (conj Hnone (conj Hs (conj Hin (conj _ _)))).
        -- discriminate.
        -- intros Hlen. exfalso. apply Hlen. rewrite <- Ht, length_fmap. exact Hone.
Qed.

Lemma reachable_panel_inv ns p : reachable ns p -> panel_inv ns p.
Proof.
  induction 1 as [fuel p Hinit|p fuel i c p' _ IH Hrun].
  - now apply (panel_inv_init fuel).
  - apply (radio_setChecked_more fuel (S (S fuel))) in Hrun; [|lia].
    destruct (panel_inv_setChecked fuel ns i c p IH) as (p2 & E & Hinv).
    rewrite Hrun in E. now injection E as <-.
Qed.

Lemma count_none (l : list UnpickRadioButton) :
  (forall k b, l !! k = Some b -> isChecked b = false) ->
  length (filter (fun b => isChecked b = true) l) = 0%nat.
Proof.
  induction l as [|x l IH]; intros H; [reflexivity|].
  rewrite filter_cons_False.
  - apply IH. intros k b. apply (H (S k)).
  - rewrite (H 0%nat x eq_refl). discriminate.
Qed.

Lemma count_one (l : list UnpickRadioButton) : forall i b,
  l !! i = Some b -> isChecked b = true ->
  (forall k bk, l !! k = Some bk -> isChecked bk = true -> k = i) ->
  length (filter (fun b => isChecked b = true) l) = 1%nat.
Proof.
  induction l as [|x l IH]; intros i b Ei Cb Honly; [discriminate|].
  destruct i as [|i]; cbn in Ei.
  - injection Ei as ->. rewrite filter_cons_True by assumption. cbn. f_equal.
    apply count_none. intros k bk Ek. destruct (isChecked bk) eqn:Ck; [|reflexivity].
    now pose proof (Honly (S k) bk Ek Ck).
  - rewrite filter_cons_False.
    + apply (IH i b Ei Cb). intros k bk Ek Ck.
      pose proof (Honly (S k) bk Ek Ck). lia.
    + intros Cx. now pose proof (Honly 0%nat x eq_refl Cx).
Qed.

Lemma only_checked_count c p :
  only_checked c (radioButtons p) ->
  checked_count p = match c with Some _ => 1%nat | None => 0%nat end.
Proof.
  intros [Hc Hlen]. unfold checked_count. destruct c as [j|].
  - destruct (lookup_lt_is_Some_2 _ _ (Hlen j eq_refl)) as [bj Ej].
    apply (count_one _ j bj Ej); [now apply (Hc j bj Ej)|].
    intros k bk Ek Ck. apply (Hc k bk Ek) in Ck. congruence.
  - apply count_none. intros k b Ek. destruct (isChecked b) eqn:Cb; [|reflexivity].
    apply (Hc k b Ek) in Cb. discriminate.
Qed.

(** C4. The panel for A, B, C starts with A selected; checking the button
    C makes C the selection and leaves C the only checked button. *)
Theorem RadioButtonPanel_abc fuel :
  exists p0 p1,
    init (S (S fuel)) ["A"; "B"; "C"] = Some (Ok p0)
    /\ getCurrentSelection p0 = Ok "A"
    /\ setChecked (S (S fuel)) 2 true p0 = Some p1
    /\ getCurrentSelection p1 = Ok "C"
    /\ radioButtons p1
       = [mkButton "A" false; mkButton "B" false; mkButton "C" true].
Proof. do 2 eexists. repeat split; reflexivity. Qed.

(** C5, as the code has it. The constructor selects the first name and
    checks its button.  In every state of the panel at most one button is
    checked, the selection is one of the names and is the label of the
    checked button if there is one, and every [setChecked] returns.  With
    two names or more exactly one button is checked. *)
Theorem RadioButtonPanel_selection first rest p :
  reachable (first :: rest) p ->
  (forall fuel, exists p0,
      init (S (S fuel)) (first :: rest) = Some (Ok p0)
      /\ getCurrentSelection p0 = Ok first
      /\ radioButtons p0 !! 0%nat = Some (mkButton first true))
  /\ (checked_count p <= 1)%nat
  /\ (exists s, getCurrentSelection p = Ok s /\ s ∈ first :: rest)
  /\ (forall k b, radioButtons p !! k = Some b -> isChecked b = true ->
      getCurrentSelection p = Ok (text b))
  /\ (rest <> [] -> checked_count p = 1%nat)
  /\ (forall fuel i c, exists p',
        setChecked (S (S fuel)) i c p = Some p' /\ reachable (first :: rest) p').
Proof.
  intros Hreach.
  pose proof (reachable_panel_inv _ _ Hreach)
    as (Hn & Ht & c & s & Honly & Hs & Hin & Hsel & Hsome).
  pose proof (only_checked_count c p Honly) as Hcount.
  split; [|split; [|split; [|split; [|split]]]].
  - intros fuel. destruct (init_first fuel first rest) as (p0 & E & _ & _ & _ & Hs0 & H0).
    exists p0. unfold getCurrentSelection. now rewrite Hs0.
  - rewrite Hcount. destruct c; lia.
  - exists s. unfold getCurrentSelection. now rewrite Hs.
  - intros k b Ek Cb. unfold getCurrentSelection. rewrite Hs. f_equal.
    apply (Hsel k b); [|exact Ek]. now apply (proj1 Honly k b Ek).
  - intros Hrest. rewrite Hcount. destruct Hsome as [j ->]; [|reflexivity].
    destruct rest; [contradiction | discriminate].
  - intros fuel i c'.
    destruct (panel_inv_setChecked fuel _ i c' p (reachable_panel_inv _ _ Hreach))
      as (p' & Hrun & _).
    exists p'. split; [exact Hrun|]. exact (reach_setChecked _ _ _ _ _ _ Hreach Hrun).
Qed.

Lemma RadioButtonPanel_selection_witness :
  (checked_count (mk ["A"; "B"] [mkButton "A" true; mkButton "B" false] (Some "A"))
   <= 1)%nat.
Proof.
  apply (RadioButtonPanel_selection "A" ["B"]
           (mk ["A"; "B"] [mkButton "A" true; mkButton "B" false] (Some "A"))).
  apply (reach_init _ 2). reflexivity.
Defined.

(** The lone button of a panel made for one name can be set unchecked:
    the toolkit treats it as a button without a group.  No button is
    checked then, and the selection still reports the name. *)
Lemma RadioButtonPanel_lone_button_unchecked :
  exists p0 p,
    init 2 ["A"] = Some (Ok p0)
    /\ setChecked 2 0 false p0 = Some p
    /\ reachable ["A"] p
    /\ checked_count p = 0%nat
    /\ checked_count p <> 1%nat
    /\ getCurrentSelection p = Ok "A".
Proof.
  do 2 eexists. split; [reflexivity|]. split; [reflexivity|]. split.
  - eapply (reach_setChecked _ _ 2 0 false).
    + apply (reach_init _ 2). reflexivity.
    + reflexivity.
  - split; [reflexivity|]. split; [discriminate | reflexivity].
Qed.

(** C9. With no name the constructor raises [IndexError] at the default
    selection; with a first name it returns a panel whose first button is
    checked. *)
Theorem RadioButtonPanel_empty_names fuel ns :
  match ns with
  | [] => init fuel ns = Some (Raise IndexError)
  | first :: _ =>
      exists p,
        init (S (S fuel)) ns = Some (Ok p)
        /\ radioButtons p !! 0%nat = Some (mkButton first true)
  end.
Proof.
  destruct ns as [|first rest]; [reflexivity|].
  destruct (init_first fuel first rest) as (p & E & _ & _ & _ & _ & H0). eauto.
Qed.

End RadioButtonPanel_facts.

(** * Further properties *)

(** ** RectP: errors, events, conversions *)

Section RectP_more.
Import Py RectP.

Lemma to_start_size_TypeError (r : RectP.t Z) :
  to_start_size r = Raise TypeError
  <-> x0 r = None \/ y0 r = None \/ x1 r = None \/ y1 r = None.
Proof.
  destruct r as [[a|] [b|] [c|] [d|]]; cbn; split;
    try (intros [H|[H|[H|H]]]; discriminate);
    try discriminate; try reflexivity; tauto.
Qed.


(** After any sequence of corner assignments the rectangle holds the
    arguments of the last [add_p0] and of the last [add_p1], whatever came
    before and however the two kinds were interleaved. *)
Theorem RectP_assign_all_to_points {A} (ops : list (assignment A)) (r : RectP.t A) :
  to_points (assign_all ops r)
  = [(latest_p0 ops (x0 r, y0 r)).1; (latest_p0 ops (x0 r, y0 r)).2;
     (latest_p1 ops (x1 r, y1 r)).1; (latest_p1 ops (x1 r, y1 r)).2].
Proof.
  destruct (assign_all_corners ops r) as [<- <-]. reflexivity.
Qed.


(** [from_points] raises [IndexError] exactly when one of the points has
    fewer than two entries; entries past the second are ignored. *)
Theorem RectP_from_points_raises {A} (p0 p1 : list A) (a b c d : A) (rest0 rest1 : list A) :
  (from_points p0 p1 = Raise IndexError
   <-> (length p0 < 2)%nat \/ (length p1 < 2)%nat)
  /\ from_points (a :: b :: rest0) (c :: d :: rest1) = from_points [a; b] [c; d].
Proof.
  split; [|reflexivity].
  destruct p0 as [|a0 [|b0 p0]]; destruct p1 as [|c0 [|d0 p1]]; cbn;
    (split; [intros H; try discriminate; lia
            | intros [H|H]; try reflexivity; lia]).
Qed.

(** The two conversions are inverse on rectangles with both corners set:
    feeding the output of [to_points] back to [from_points] rebuilds the
    rectangle. *)
Theorem RectP_to_points_from_points {A} (r : RectP.t A) (a b c d : A) :
  to_points r = [Some a; Some b; Some c; Some d] ->
  from_points [a; b] [c; d] = Ok r.
Proof.
  destruct r as [x0 y0 x1 y1]. cbn. intros [= -> -> -> ->]. reflexivity.
Qed.

Lemma RectP_to_points_from_points_witness :
  from_points [5; 8] [2; 3] = Ok (RectP.mk (Some 5) (Some 8) (Some 2) (Some 3)).
Proof.
  apply (RectP_to_points_from_points
           (RectP.mk (Some 5) (Some 8) (Some 2) (Some 3)) 5 8 2 3).
  reflexivity.
Defined.

(** The size does not depend on which corner came first: swapping the two
    points swaps the start and keeps width and height. *)
Theorem RectP_size_symmetric (a b c d : Z) :
  exists w h,
    (let* r := from_points [a; b] [c; d] in to_start_size r)
    = Ok [Some a; Some b; Some w; Some h]
    /\ (let* r := from_points [c; d] [a; b] in to_start_size r)
       = Ok [Some c; Some d; Some w; Some h].
Proof.
  exists (Z.abs (c - a)), (Z.abs (d - b)). split; [reflexivity|]. cbn.
  do 4 f_equal; [|f_equal]; f_equal; lia.
Qed.

(** The start returned is the first corner as given, not the lower left
    one: start plus size reaches the second corner only along an axis on
    which the corners are in order, and the size is zero only when the
    corners agree on that axis. *)
Theorem RectP_start_not_normalised (a b c d : Z) :
  exists w h,
    (let* r := from_points [a; b] [c; d] in to_start_size r)
    = Ok [Some a; Some b; Some w; Some h]
    /\ (a + w = c <-> a <= c) /\ (b + h = d <-> b <= d)
    /\ (w = 0 <-> a = c) /\ (h = 0 <-> b = d).
Proof.
  exists (Z.abs (c - a)), (Z.abs (d - b)). split; [reflexivity|]. lia.
Qed.

End RectP_more.

(** ** MyQSpinBox: sequences of keys *)

Section MyQSpinBox_more.
Import MyQSpinBox.

Variable super_keyPressEvent : MyQSpinBox.t -> Key -> outcome.

Local Abbreviation keyPressEvent := (MyQSpinBox.keyPressEvent super_keyPressEvent).
Local Abbreviation keyPresses := (MyQSpinBox.keyPresses super_keyPressEvent).

Lemma keyPresses_from keys : forall (s : MyQSpinBox.t) (log : list Z),
  fold_left
    (fun (acc : outcome) key =>
       let (self, out) := keyPressEvent acc.1 key in (self, acc.2 ++ out))
    keys (s, log)
  = ((keyPresses keys s).1, log ++ (keyPresses keys s).2).
Proof.
  unfold MyQSpinBox.keyPresses.
  induction keys as [|k keys IH]; intros s log; cbn [fold_left fst snd].
  - now rewrite app_nil_r.
  - destruct (keyPressEvent s k) as [s1 out1].
    rewrite (IH s1 (log ++ out1)), (IH s1 ([] ++ out1)). cbn [fst snd app].
    now rewrite app_assoc.
Qed.

Lemma keyPresses_cons k keys s :
  keyPresses (k :: keys) s
  = ((keyPresses keys (keyPressEvent s k).1).1,
     (keyPressEvent s k).2 ++ (keyPresses keys (keyPressEvent s k).1).2).
Proof.
  unfold MyQSpinBox.keyPresses at 1. cbn [fold_left fst snd app].
  destruct (keyPressEvent s k) as [s1 out1]. apply keyPresses_from.
Qed.

(** What one overridden key does to a widget whose value is in range. *)
Lemma keyPressEvent_own s k :
  wf s -> overridden k = true ->
  wf (keyPressEvent s k).1
  /\ minimum (keyPressEvent s k).1 = minimum s
  /\ maximum (keyPressEvent s k).1 = maximum s
  /\ ((keyPressEvent s k).2 = [] /\ (keyPressEvent s k).1 = s
      \/ (keyPressEvent s k).2 = [value (keyPressEvent s k).1]).
Proof.
  intros [Hlo Hhi] Hk. unfold wf.
  destruct k; try discriminate Hk; cbn [MyQSpinBox.keyPressEvent].
  - cbn. auto.
  - destruct (Z.geb_spec (value s) (maximum s)); cbn; [now auto 6|].
    repeat split; try lia. right. f_equal. lia.
  - destruct (Z.leb_spec (value s) (minimum s)); cbn; [now auto 6|].
    repeat split; try lia. right. f_equal. lia.
Qed.

(** An arrow key moves the value by at most one and never out of the
    range, leaves the range alone, and emits [changed] once with the new
    value or, at the bound, not at all. *)
Theorem MyQSpinBox_arrow_keeps_range (s : MyQSpinBox.t) (k : Key) :
  wf s -> is_arrow k = true ->
  wf (keyPressEvent s k).1
  /\ minimum (keyPressEvent s k).1 = minimum s
  /\ maximum (keyPressEvent s k).1 = maximum s
  /\ ((keyPressEvent s k).1 = s /\ (keyPressEvent s k).2 = []
      \/ (value (keyPressEvent s k).1
          = value s + (if k is Key_Up then 1 else -1)
          /\ (keyPressEvent s k).2 = [value (keyPressEvent s k).1])).
Proof.
  intros [Hlo Hhi] Hk. unfold wf.
  destruct k; try discriminate Hk; cbn [MyQSpinBox.keyPressEvent].
  - destruct (Z.geb_spec (value s) (maximum s)); cbn; [now auto 6|].
    repeat split; try lia. right. split; [lia | f_equal; lia].
  - destruct (Z.leb_spec (value s) (minimum s)); cbn; [now auto 6|].
    repeat split; try lia. right. split; [lia | f_equal; lia].
Qed.

(** Away from the bound an arrow key is undone by the opposite one: Up
    then Down below the maximum, and Down then Up above the minimum, give
    the widget back, and the second key reports the old value. *)
Theorem MyQSpinBox_up_down_roundtrip (s : MyQSpinBox.t) :
  wf s ->
  (value s < maximum s ->
   keyPresses [Key_Up; Key_Down] s = (s, [value s + 1; value s]))
  /\ (minimum s < value s ->
      keyPresses [Key_Down; Key_Up] s = (s, [value s - 1; value s])).
Proof.
  intros [Hlo Hhi]. unfold MyQSpinBox.keyPresses. destruct s as [lo hi v].
  cbn [fold_left fst snd app MyQSpinBox.keyPressEvent value minimum maximum] in *.
  split; intros H.
  - destruct (Z.geb_spec v hi); [lia|]. unfold setValue.
    cbn [fst snd app value minimum maximum].
    replace (Z.max lo (Z.min hi (v + 1))) with (v + 1) by lia.
    destruct (Z.leb_spec (v + 1) lo); [lia|].
    cbn [fst snd app value minimum maximum].
    replace (v + 1 - 1) with v by lia.
    replace (Z.max lo (Z.min hi v)) with v by lia. reflexivity.
  - destruct (Z.leb_spec v lo); [lia|]. unfold setValue.
    cbn [fst snd app value minimum maximum].
    replace (Z.max lo (Z.min hi (v - 1))) with (v - 1) by lia.
    destruct (Z.geb_spec (v - 1) hi); [lia|].
    cbn [fst snd app value minimum maximum].
    replace (v - 1 + 1) with v by lia.
    replace (Z.max lo (Z.min hi v)) with v by lia. reflexivity.
Qed.

(** Whatever overridden keys are pressed, in whatever order, the value
    stays in range and an observer of [changed] knows it: the value is the
    last one emitted, or the initial one while nothing was emitted, and
    everything emitted lies in the range. *)
Theorem MyQSpinBox_last_changed_is_value (keys : list Key) (s : MyQSpinBox.t) :
  wf s -> Forall (fun k => overridden k = true) keys ->
  wf (keyPresses keys s).1
  /\ value (keyPresses keys s).1 = default (value s) (last (keyPresses keys s).2)
  /\ Forall (fun v => minimum s <= v <= maximum s) (keyPresses keys s).2.
Proof.
  revert s. induction keys as [|k keys IH]; intros s Hwf Hkeys.
  - cbn. auto.
  - apply Forall_cons in Hkeys as [Hk Hkeys].
    destruct (keyPressEvent_own s k Hwf Hk) as (Hwf1 & Hmin & Hmax & Hout).
    destruct (IH _ Hwf1 Hkeys) as (Hwf' & Hval & Hall).
    rewrite keyPresses_cons. cbn [fst snd]. split; [exact Hwf'|].
    rewrite Hmin, Hmax in Hall. rewrite last_app, Hval.
    split.
    + destruct (last (keyPresses keys (keyPressEvent s k).1).2); [reflexivity|].
      destruct Hout as [[-> ->]| ->]; reflexivity.
    + apply Forall_app. split; [|exact Hall].
      destruct Hout as [[-> _]| ->]; [constructor|].
      constructor; [|constructor]. destruct Hwf1. lia.
Qed.

(** Holding the Up key: [n] presses take the value to the maximum and no
    further, and [changed] is emitted once for every value passed through,
    in order, and not at all once the maximum is reached. *)
Theorem MyQSpinBox_up_saturates (n : nat) (s : MyQSpinBox.t) :
  wf s ->
  keyPresses (replicate n Key_Up) s
  = (MyQSpinBox.mk (minimum s) (maximum s)
       (Z.min (value s + Z.of_nat n) (maximum s)),
     (fun i => value s + Z.of_nat (S i))
       <$> seq 0 (Nat.min n (Z.to_nat (maximum s - value s)))).
Proof.
  revert s. induction n as [|n IH]; intros s [Hlo Hhi].
  - destruct s as [lo hi v]. cbn in *. do 2 f_equal. lia.
  - cbn [replicate]. rewrite keyPresses_cons.
    cbn [MyQSpinBox.keyPressEvent].
    destruct (Z.geb_spec (value s) (maximum s)) as [Hge|Hlt]; cbn [fst snd].
    + rewrite (IH s) by (split; assumption). cbn [fst snd app].
      replace (Z.to_nat (maximum s - value s)) with 0%nat by lia.
      rewrite !Nat.min_0_r. f_equal. f_equal. lia.
    + rewrite IH by (unfold wf, setValue; cbn; lia).
      cbn [fst snd minimum maximum value setValue].
      replace (Z.max (minimum s) (Z.min (maximum s) (value s + 1)))
        with (value s + 1) by lia.
      replace (value s + 1 + Z.of_nat n) with (value s + Z.of_nat (S n)) by lia.
      f_equal.
      replace (Z.to_nat (maximum s - value s))
        with (S (Z.to_nat (maximum s - (value s + 1)))) by lia.
      rewrite <- Nat.succ_min_distr. cbn [seq fmap list_fmap app].
      change (Z.of_nat 1) with 1. apply (f_equal (cons (value s + 1))).
      rewrite <- fmap_S_seq, <- list_fmap_compose.
      apply list_fmap_ext. intros i x _. cbn. lia.
Qed.

End MyQSpinBox_more.

Section MyQSpinBox_more_runs.
Import MyQSpinBox.

Local Abbreviation keyPressEvent := (MyQSpinBox.keyPressEvent QSpinBox_keyPressEvent).
Local Abbreviation keyPresses := (MyQSpinBox.keyPresses QSpinBox_keyPressEvent).

Lemma MyQSpinBox_arrow_keeps_range_witness :
  wf (keyPressEvent (MyQSpinBox.mk 0 99 0) Key_Down).1.
Proof.
  apply (MyQSpinBox_arrow_keeps_range QSpinBox_keyPressEvent
           (MyQSpinBox.mk 0 99 0) Key_Down).
  - unfold wf; cbn; lia.
  - reflexivity.
Defined.

Lemma MyQSpinBox_up_down_roundtrip_witness :
  keyPresses [Key_Up; Key_Down] (MyQSpinBox.mk 0 99 41)
  = (MyQSpinBox.mk 0 99 41, [41 + 1; 41]).
Proof.
  apply (MyQSpinBox_up_down_roundtrip QSpinBox_keyPressEvent (MyQSpinBox.mk 0 99 41)).
  - unfold wf; cbn; lia.
  - cbn; lia.
Defined.

Lemma MyQSpinBox_last_changed_is_value_witness :
  value (keyPresses [Key_Up; Key_Up; Key_Return; Key_Down] (MyQSpinBox.mk 0 99 98)).1
  = default 98
      (last (keyPresses [Key_Up; Key_Up; Key_Return; Key_Down]
               (MyQSpinBox.mk 0 99 98)).2).
Proof.
  apply (MyQSpinBox_last_changed_is_value QSpinBox_keyPressEvent
           [Key_Up; Key_Up; Key_Return; Key_Down] (MyQSpinBox.mk 0 99 98)).
  - unfold wf; cbn; lia.
  - repeat constructor.
Defined.

Lemma MyQSpinBox_up_saturates_witness :
  keyPresses (replicate 5 Key_Up) (MyQSpinBox.mk 0 99 97)
  = (MyQSpinBox.mk 0 99 (Z.min (97 + Z.of_nat 5) 99),
     (fun i => 97 + Z.of_nat (S i)) <$> seq 0 (Nat.min 5 (Z.to_nat (99 - 97)))).
Proof.
  apply (MyQSpinBox_up_saturates QSpinBox_keyPressEvent 5 (MyQSpinBox.mk 0 99 97)).
  unfold wf; cbn; lia.
Defined.

Example up_five_times :
  keyPresses (replicate 5 Key_Up) (MyQSpinBox.mk 0 99 97)
  = (MyQSpinBox.mk 0 99 99, [98; 99]).
Proof. reflexivity. Qed.

End MyQSpinBox_more_runs.

(** ** RadioButtonPanel: selecting, unchecking, repeating *)

Section RadioButtonPanel_more.
Import Py Qt RadioButtonPanel.

(** In every state of the panel, checking the button at position [i]
    returns, makes the name at position [i] the selection and that button
    the only checked one, whether or not names repeat. *)
Theorem RadioButtonPanel_check_selects ns p i name fuel :
  reachable ns p -> ns !! i = Some name ->
  exists p',
    setChecked (S (S fuel)) i true p = Some p'
    /\ getCurrentSelection p' = Ok name
    /\ (forall k b, radioButtons p' !! k = Some b -> (isChecked b = true <-> k = i))
    /\ checked_count p' = 1%nat.
Proof.
  intros Hreach Hname.
  pose proof (reachable_panel_inv _ _ Hreach)
    as (Hn & Ht & c & s & Honly & Hs & Hin & Hsel & Hsome).
  assert (exists b, radioButtons p !! i = Some b /\ text b = name) as (b & Ei & Tb).
  { rewrite <- Ht, list_lookup_fmap in Hname.
    destruct (radioButtons p !! i) as [b|]; [|discriminate].
    exists b. split; [reflexivity|]. now injection Hname. }
  destruct (radio_setChecked_true fuel i p c b Honly Ei)
    as (p' & Hrun & _ & _ & Honly' & Hsame & Hnew).
  exists p'. split; [exact Hrun|]. split; [|split].
  - unfold getCurrentSelection. destruct (decide (c = Some i)) as [Hc|Hc].
    + rewrite (Hsame Hc), Hs. f_equal. rewrite <- Tb. now apply (Hsel i b).
    + rewrite (Hnew Hc). now rewrite Tb.
  - intros k bk Ek. rewrite (proj1 Honly' k bk Ek). split; congruence.
  - now rewrite (only_checked_count (Some i)).
Qed.

Lemma RadioButtonPanel_check_selects_witness :
  exists p',
    setChecked 2 1 true (mk ["A"; "A"] [mkButton "A" true; mkButton "A" false] (Some "A"))
    = Some p'
    /\ getCurrentSelection p' = Ok "A"
    /\ (forall k b, radioButtons p' !! k = Some b -> (isChecked b = true <-> k = 1%nat))
    /\ checked_count p' = 1%nat.
Proof.
  apply (RadioButtonPanel_check_selects ["A"; "A"]
           (mk ["A"; "A"] [mkButton "A" true; mkButton "A" false] (Some "A"))
           1 "A" 0).
  - apply (reach_init _ 2). reflexivity.
  - reflexivity.
Defined.

(** Unchecking never changes the selection, and on a panel with several
    names it changes nothing at all: the request on the checked button is
    refused and the others are unchecked already. *)
Theorem RadioButtonPanel_uncheck ns p i fuel :
  reachable ns p ->
  exists p',
    setChecked (S fuel) i false p = Some p'
    /\ getCurrentSelection p' = getCurrentSelection p
    /\ (length ns <> 1%nat -> p' = p).
Proof.
  intros Hreach.
  pose proof (reachable_panel_inv _ _ Hreach)
    as (Hn & Ht & c & s & Honly & Hs & Hin & Hsel & Hsome).
  destruct (radio_setChecked_false fuel i p c Honly)
    as (p' & Hrun & [->|(Hone & -> & _)]).
  - exists p. auto.
  - eexists. split; [exact Hrun|]. split; [reflexivity|].
    intros Hlen. exfalso. apply Hlen. now rewrite <- Ht, length_fmap.
Qed.

Lemma RadioButtonPanel_uncheck_witness :
  exists p',
    setChecked 1 0 false
      (mk ["A"; "B"] [mkButton "A" true; mkButton "B" false] (Some "A")) = Some p'
    /\ getCurrentSelection p'
       = getCurrentSelection
           (mk ["A"; "B"] [mkButton "A" true; mkButton "B" false] (Some "A"))
    /\ (length ["A"; "B"] <> 1%nat ->
        p' = mk ["A"; "B"] [mkButton "A" true; mkButton "B" false] (Some "A")).
Proof.
  apply (RadioButtonPanel_uncheck ["A"; "B"]
           (mk ["A"; "B"] [mkButton "A" true; mkButton "B" false] (Some "A")) 0 0).
  apply (reach_init _ 2). reflexivity.
Defined.

(** Asking twice is asking once: a [setChecked] repeated on its own result
    returns that result. *)
Theorem RadioButtonPanel_setChecked_idempotent ns p i c fuel p' :
  reachable ns p ->
  setChecked (S (S fuel)) i c p = Some p' ->
  setChecked (S (S fuel)) i c p' = Some p'.
Proof.
  intros Hreach Hrun.
  pose proof (reachable_panel_inv _ _ Hreach)
    as (Hn & Ht & c0 & s & Honly & Hs & Hin & Hsel & Hsome).
  destruct (radioButtons p !! i) as [b|] eqn:Ei.
  2:{ rewrite radio_setChecked_unfold, Ei in Hrun. injection Hrun as <-.
      now rewrite radio_setChecked_unfold, Ei. }
  destruct c.
  - destruct (radio_setChecked_true fuel i p c0 b Honly Ei)
      as (p1 & Hrun1 & _ & _ & Honly1 & _ & _).
    rewrite Hrun in Hrun1. injection Hrun1 as <-.
    destruct (lookup_lt_is_Some_2 _ _ (proj2 Honly1 i eq_refl)) as [b' Ei'].
    destruct (radio_setChecked_true fuel i p' (Some i) b' Honly1 Ei')
      as (p2 & Hrun2 & _ & _ & _ & Hsame & _).
    now rewrite Hrun2, (Hsame eq_refl).
  - destruct (radio_setChecked_false (S fuel) i p c0 Honly)
      as (p1 & Hrun1 & [->|(Hone & -> & Hnone)]);
      rewrite Hrun in Hrun1; injection Hrun1 as ->; [exact Hrun|].
    apply radio_setChecked_false_idle. intros bk Ek.
    destruct (isChecked bk) eqn:Ck; [|reflexivity].
    apply (proj1 Hnone i bk Ek) in Ck. discriminate.
Qed.

Lemma RadioButtonPanel_setChecked_idempotent_witness :
  setChecked 2 1 true (mk ["A"; "B"] [mkButton "A" false; mkButton "B" true] (Some "B"))
  = Some (mk ["A"; "B"] [mkButton "A" false; mkButton "B" true] (Some "B")).
Proof.
  apply (RadioButtonPanel_setChecked_idempotent ["A"; "B"]
           (mk ["A"; "B"] [mkButton "A" true; mkButton "B" false] (Some "A"))
           1 true 0).
  - apply (reach_init _ 2). reflexivity.
  - reflexivity.
Defined.

(** The panel never relabels, adds or drops a button: in every state the
    names are the ones given and the buttons carry them in order. *)
Theorem RadioButtonPanel_labels_fixed ns p :
  reachable ns p ->
  names p = ns /\ text <$> radioButtons p = ns
  /\ length (radioButtons p) = length ns.
Proof.
  intros Hreach. destruct (reachable_panel_inv _ _ Hreach) as (Hn & Ht & _).
  split; [exact Hn|]. split; [exact Ht|]. now rewrite <- Ht, length_fmap.
Qed.

Lemma RadioButtonPanel_labels_fixed_witness :
  text <$> radioButtons (mk ["A"; "B"] [mkButton "A" true; mkButton "B" false] (Some "A"))
  = ["A"; "B"].
Proof.
  apply (RadioButtonPanel_labels_fixed ["A"; "B"]
           (mk ["A"; "B"] [mkButton "A" true; mkButton "B" false] (Some "A"))).
  apply (reach_init _ 2). reflexivity.
Defined.

End RadioButtonPanel_more.

(** ** ToggleButton: the text and the missing parent *)

Section ToggleButton_more.
Import Qt ToggleButton.

(** Whatever a [setChecked] does to the buttons, each one is left as it
    was, or set [on], or set [off]. *)
Lemma setChecked_effect fuel i c w w' :
  setChecked fuel i c w = Some w' ->
  forall k bk', w' !! k = Some bk' ->
    exists bk, w !! k = Some bk /\ (bk' = bk \/ bk' = on bk \/ bk' = off bk).
Proof.
  intros Hrun k bk' Ek'.
  apply (setChecked_more fuel (S (S fuel))) in Hrun; [|lia].
  destruct (w !! i) as [b|] eqn:Ei.
  2:{ rewrite setChecked_unfold, Ei in Hrun. injection Hrun as <-. eauto. }
  destruct c; [destruct (isChecked b) eqn:Hc|].
  - rewrite (setChecked_same _ _ _ _ b Ei Hc) in Hrun. injection Hrun as <-. eauto.
  - destruct (setChecked_on fuel i w b Ei Hc) as (w2 & Hrun2 & Hon & Hrest).
    rewrite Hrun in Hrun2. injection Hrun2 as <-.
    destruct (decide (k = i)) as [->|Hk].
    + rewrite Hon in Ek'. injection Ek' as <-. eauto.
    + rewrite (Hrest k Hk) in Ek'. destruct (w !! k) as [bk|]; [|discriminate].
      cbn in Ek'. injection Ek' as <-. exists bk. split; [reflexivity|].
      case_bool_decide; auto.
  - rewrite setChecked_off in Hrun. injection Hrun as <-.
    rewrite list_lookup_alter in Ek'. case_decide; subst; [|eauto].
    destruct (w !! k) as [bk|]; [|discriminate]. cbn in Ek'.
    injection Ek' as <-. eauto.
Qed.

(** The text of a button agrees with its state in every state the buttons
    can be in: without [usesfix] it is the title for good; with [usesfix]
    a checked button reads title and [" ON"], an unchecked one the title
    (never toggled) or title and [" OFF"]. *)
Theorem ToggleButton_text_tracks_state w i b :
  reachable w -> w !! i = Some b ->
  (usesfix b = false -> text b = title b)
  /\ (usesfix b = true -> isChecked b = true -> text b = title b +:+ " ON")
  /\ (usesfix b = true -> isChecked b = false ->
      text b = title b \/ text b = title b +:+ " OFF").
Proof.
  intros Hreach. revert i b.
  induction Hreach as [w Hinit|w fuel j c w' Hreach IH Hrun]; intros i b Ei.
  - rewrite Forall_lookup in Hinit.
    destruct (Hinit i b Ei) as (ti & u & e & q & ->). cbn.
    repeat split; intros; auto; congruence.
  - destruct (setChecked_effect _ _ _ _ _ Hrun i b Ei) as (b0 & E0 & Hb).
    specialize (IH i b0 E0). destruct IH as (Hno & Hon & Hoff).
    destruct Hb as [->|[->| ->]]; [exact (conj Hno (conj Hon Hoff))| |].
    + unfold on. destruct (isChecked b0) eqn:C0;
        [repeat split; intros; auto; congruence|].
      destruct (usesfix b0) eqn:U0; cbn; rewrite ?U0;
        repeat split; intros; auto; congruence.
    + unfold off. destruct (isChecked b0) eqn:C0;
        [|repeat split; intros; auto; congruence].
      destruct (usesfix b0) eqn:U0; cbn; rewrite ?U0;
        repeat split; intros; auto; congruence.
Qed.

Lemma ToggleButton_text_tracks_state_witness :
  (usesfix (init "a" true true (Some 0%nat)) = false ->
   text (init "a" true true (Some 0%nat)) = title (init "a" true true (Some 0%nat)))
  /\ (usesfix (init "a" true true (Some 0%nat)) = true ->
      isChecked (init "a" true true (Some 0%nat)) = true ->
      text (init "a" true true (Some 0%nat))
      = title (init "a" true true (Some 0%nat)) +:+ " ON")
  /\ (usesfix (init "a" true true (Some 0%nat)) = true ->
      isChecked (init "a" true true (Some 0%nat)) = false ->
      text (init "a" true true (Some 0%nat))
      = title (init "a" true true (Some 0%nat))
      \/ text (init "a" true true (Some 0%nat))
         = title (init "a" true true (Some 0%nat)) +:+ " OFF").
Proof.
  apply (ToggleButton_text_tracks_state [init "a" true true (Some 0%nat)] 0
           (init "a" true true (Some 0%nat))).
  - apply reach_init. repeat constructor; repeat eexists.
  - reflexivity.
Defined.

(** An exclusive button that has no parent has nobody to tell: whatever
    state it is set to, every other button stays exactly as it was. *)
Theorem ToggleButton_no_parent_frame fuel i c w b :
  w !! i = Some b -> parent b = None ->
  exists w',
    setChecked (S (S fuel)) i c w = Some w'
    /\ isChecked <$> w' !! i = Some c
    /\ forall k, k <> i -> w' !! k = w !! k.
Proof.
  intros Hi Hp. destruct c.
  - destruct (isChecked b) eqn:Hc.
    + exists w. split; [now apply (setChecked_same _ _ _ _ b)|].
      split; [now rewrite Hi; cbn; rewrite Hc | reflexivity].
    + destruct (setChecked_on fuel i w b Hi Hc) as (w' & Hrun & Hon & Hrest).
      exists w'. split; [exact Hrun|]. split.
      * rewrite Hon. cbn. unfold on. rewrite Hc. now destruct (usesfix b).
      * intros k Hk. rewrite (Hrest k Hk).
        destruct (w !! k) as [bk|]; [|reflexivity]. cbn.
        rewrite bool_decide_eq_false_2; [reflexivity|]. intros (_ & [x Hx] & _).
        congruence.
  - exists (alter off i w). split; [apply setChecked_off|]. split.
    + rewrite list_lookup_alter_eq, Hi. cbn. now rewrite off_unchecked.
    + intros k Hk. now rewrite list_lookup_alter_ne.
Qed.

Lemma ToggleButton_no_parent_frame_witness :
  exists w',
    setChecked 2 0 true [init "a" false true None; mk "b" true true None "b ON" true]
    = Some w'
    /\ isChecked <$> w' !! 0%nat = Some true
    /\ forall k, k <> 0%nat ->
        w' !! k
        = [init "a" false true None; mk "b" true true None "b ON" true] !! k.
Proof.
  apply (ToggleButton_no_parent_frame 0 0 true
           [init "a" false true None; mk "b" true true None "b ON" true]
           (init "a" false true None)); reflexivity.
Defined.

End ToggleButton_more.
